(** * Brainwave-entrainment: the ThinkGear frame decoder and the spectral / IAF
    code of the mobile app, embedded in Rocq.

    - [ThinkGear] embeds [src/mobile/utils/ThinkGearDecoder.js]
      ([ThinkGearDecoder.parseStream]).  Bytes are [Z]; the object's
      [this.buffer] is passed in and returned explicitly.
    - [Spectral] embeds [EEGProcessor] ([src/unnamed/part_007]) and
      [CRBCalculator] ([src/mobile/app/iaf-calibration.jsx]).  JS numbers
      are modelled as rationals [Q]: the results below are about which
      samples, bins and windows the code combines, not about rounding.
      Where the code computes with [undefined] or [NaN] (reads past the
      output of the transform), the model says so with [None].
    - [BleContext] embeds the bounded histories of
      [src/mobile/context/BleContext.jsx]. *)

From Stdlib Require Import List ZArith QArith Qround Lia Bool Arith.
Import ListNotations.

Module ThinkGear.

Open Scope Z_scope.

Definition SYNC : Z := 170. (* 0xAA *)

Definition MIN_PACKET_LENGTH : nat := 4.

(** A JS array read at an index: all reads below are in range. *)
Definition nthZ (l : list Z) (i : nat) : Z := nth i l 0.

(** The byte values the transport delivers. *)
Definition bytes_ok (l : list Z) : bool :=
  forallb (fun x => (0 <=? x) && (x <=? 255)) l.

Inductive BandName :=
  Delta | Theta | AlphaLow | AlphaHigh | BetaLow | BetaHigh | GammaLow | GammaHigh.

Definition bands : list BandName :=
  [Delta; Theta; AlphaLow; AlphaHigh; BetaLow; BetaHigh; GammaLow; GammaHigh].

(** [parsedValues]: a JS object whose properties are set only when the
    corresponding code occurs; an absent property is [None]. *)
Record ParsedValues := mkParsed {
  poorSignal : option Z;
  attention : option Z;
  meditation : option Z;
  rawEEG : option Z;
  eegBands : option (list (BandName * Z))
}.

Definition emptyParsed : ParsedValues := mkParsed None None None None None.

Definition set_poorSignal (v : Z) (p : ParsedValues) : ParsedValues :=
  mkParsed (Some v) (attention p) (meditation p) (rawEEG p) (eegBands p).
Definition set_attention (v : Z) (p : ParsedValues) : ParsedValues :=
  mkParsed (poorSignal p) (Some v) (meditation p) (rawEEG p) (eegBands p).
Definition set_meditation (v : Z) (p : ParsedValues) : ParsedValues :=
  mkParsed (poorSignal p) (attention p) (Some v) (rawEEG p) (eegBands p).
Definition set_rawEEG (v : Z) (p : ParsedValues) : ParsedValues :=
  mkParsed (poorSignal p) (attention p) (meditation p) (Some v) (eegBands p).
Definition set_eegBands (v : list (BandName * Z)) (p : ParsedValues) : ParsedValues :=
  mkParsed (poorSignal p) (attention p) (meditation p) (rawEEG p) (Some v).

(** [unpack3ByteUnsigned]: [(b0 << 16) | (b1 << 8) | b2]; with byte
    operands the 32-bit shifts of JS never wrap. *)
Definition unpack3ByteUnsigned (b0 b1 b2 : Z) : Z :=
  Z.lor (Z.lor (Z.shiftl b0 16) (Z.shiftl b1 8)) b2.

(** The [for (const bandName of bands)] loop of the [0x83] branch. *)
Fixpoint parse_bands (names : list BandName) (pData : list Z) (i : nat)
  : list (BandName * Z) :=
  match names with
  | [] => []
  | b :: rest =>
      (b, unpack3ByteUnsigned (nthZ pData i) (nthZ pData (i + 1)) (nthZ pData (i + 2)))
        :: parse_bands rest pData (i + 3)
  end.

(** Step 3 of [parseStream], the [while (i < pData.length)] loop; every
    [break] returns the values decoded so far.  Each round advances [i] by at
    least one, so [length pData] rounds of fuel suffice. *)
Fixpoint decode_loop (fuel : nat) (pData : list Z) (i : nat) (pv : ParsedValues)
  : ParsedValues :=
  match fuel with
  | O => pv
  | S fuel' =>
    if (i <? length pData)%nat then
      let code := nthZ pData i in
      let i := S i in
      if code =? 128 then (* 0x80: raw EEG *)
        if (length pData <=? i)%nat then pv else
        let vlen := nthZ pData i in
        if negb (vlen =? 2) then pv else
        let i := S i in
        if (length pData <? i + 2)%nat then pv else
        let rawVal := Z.lor (Z.shiftl (nthZ pData i) 8) (nthZ pData (S i)) in
        decode_loop fuel' pData (i + 2)
          (set_rawEEG (if 32767 <? rawVal then rawVal - 65536 else rawVal) pv)
      else if code =? 131 then (* 0x83: band powers *)
        if (length pData <=? i)%nat then pv else
        let vlen := nthZ pData i in
        if negb (vlen =? 24) then pv else
        let i := S i in
        if (length pData <? i + 24)%nat then pv else
        decode_loop fuel' pData (i + 24) (set_eegBands (parse_bands bands pData i) pv)
      else if code =? 2 then
        if (length pData <=? i)%nat then pv else
        decode_loop fuel' pData (S i) (set_poorSignal (nthZ pData i) pv)
      else if code =? 4 then
        if (length pData <=? i)%nat then pv else
        decode_loop fuel' pData (S i) (set_attention (nthZ pData i) pv)
      else if code =? 5 then
        if (length pData <=? i)%nat then pv else
        decode_loop fuel' pData (S i) (set_meditation (nthZ pData i) pv)
      else if code <? 128 then
        if (i <? length pData)%nat then decode_loop fuel' pData (S i) pv else pv
      else
        if (length pData <=? i)%nat then pv else
        let vlen := nthZ pData i in
        decode_loop fuel' pData (i + 1 + Z.to_nat vlen) pv
    else pv
  end.

Definition decode_payload (pData : list Z) : ParsedValues :=
  decode_loop (S (length pData)) pData 0 emptyParsed.

(** The same loop over a whole payload from index [0], starting from values
    [pv] decoded before; [decode_payload] is [decode_from emptyParsed]. *)
Definition decode_from (pv : ParsedValues) (pData : list Z) : ParsedValues :=
  decode_loop (S (length pData)) pData 0 pv.

(** Step 4, the conditional output filter:
    [attention !== undefined || meditation !== undefined ||
     eegBands !== undefined || (poorSignal || 0) > 0]. *)
Definition keep_packet (pv : ParsedValues) : bool :=
  match attention pv, meditation pv, eegBands pv with
  | Some _, _, _ | _, Some _, _ | _, _, Some _ => true
  | None, None, None =>
      match poorSignal pv with Some v => 0 <? v | None => false end
  end.

(** An element of [results]; its [timestamp] (wall clock) is left out. *)
Record Packet := mkPacket { parsed : ParsedValues; checksumValid : bool }.

(** The inner [while (buffer[0] !== SYNC) buffer.shift()]. *)
Fixpoint drop_nonsync (buf : list Z) : list Z :=
  match buf with
  | [] => []
  | x :: rest => if x =? SYNC then buf else drop_nonsync rest
  end.

(** One round of the outer loop: [Stop] is a [break], [Cont] a [continue] or
    the end of the body, with the packet pushed to [results] if any. *)
Inductive Round :=
  | Stop (buf : list Z)
  | Cont (out : option Packet) (buf : list Z).

(** The outer loop body after the sync search. *)
Definition frame_step (buf : list Z) : Round :=
  if (length buf <? 2)%nat then Stop buf else
  if negb (nthZ buf 1 =? SYNC) then Cont None (tl buf) else
  if (length buf <? 3)%nat then Stop buf else
  let pLength := nthZ buf 2 in
  let totalPacketLength := (3 + Z.to_nat pLength + 1)%nat in
  if (length buf <? totalPacketLength)%nat then Stop buf else
  let packet := firstn totalPacketLength buf in
  let buf' := skipn totalPacketLength buf in
  let pData := firstn (Z.to_nat pLength) (skipn 3 packet) in
  let receivedChecksum := nthZ packet (length packet - 1) in
  let sum := fold_left Z.add pData 0 in
  let calculatedChecksum := 255 - Z.land sum 255 in
  let valid := calculatedChecksum =? receivedChecksum in
  if negb valid then Cont None buf' else
  let pv := decode_payload pData in
  if keep_packet pv then Cont (Some (mkPacket pv valid)) buf' else Cont None buf'.

Definition body (buf : list Z) : Round := frame_step (drop_nonsync buf).

(** [while (this.buffer.length >= MIN_PACKET_LENGTH) { ... }] *)
Fixpoint parse_loop (fuel : nat) (buf : list Z) : list Packet * list Z :=
  match fuel with
  | O => ([], buf)
  | S fuel' =>
    if (length buf <? MIN_PACKET_LENGTH)%nat then ([], buf) else
    match body buf with
    | Stop b => ([], b)
    | Cont o b =>
        let (out, b') := parse_loop fuel' b in
        (match o with Some p => p :: out | None => out end, b')
    end
  end.

(** The loop run to completion: every [Cont] round shortens the buffer. *)
Definition loop (buf : list Z) : list Packet * list Z :=
  parse_loop (S (length buf)) buf.

(** [parseStream(newPayload)]: the decoder's buffer before the call, the
    chunk; returns [results] and the buffer after the call. *)
Definition parseStream (buffer newPayload : list Z) : list Packet * list Z :=
  loop (buffer ++ newPayload).

(** Successive [parseStream] calls on one decoder, one per chunk. *)
Fixpoint feed_chunks (buffer : list Z) (chunks : list (list Z))
  : list Packet * list Z :=
  match chunks with
  | [] => ([], buffer)
  | c :: cs =>
      let (o1, b1) := parseStream buffer c in
      let (o2, b2) := feed_chunks b1 cs in
      (o1 ++ o2, b2)
  end.

(** A frame as the headset sends it: [SYNC SYNC LEN PAYLOAD CHECKSUM]. *)
Definition frame (p : list Z) (chk : Z) : list Z :=
  SYNC :: SYNC :: Z.of_nat (length p) :: p ++ [chk].

(** The checksum [parseStream] expects for a payload. *)
Definition checksum (p : list Z) : Z := 255 - Z.land (fold_left Z.add p 0) 255.

End ThinkGear.

Module Spectral.

Import ThinkGear.
Open Scope Q_scope.

Definition Qltb (x y : Q) : bool := negb (Qle_bool y x).

Definition QofNat (n : nat) : Q := inject_Z (Z.of_nat n).

Fixpoint sumQ (l : list Q) : Q :=
  match l with [] => 0 | x :: r => x + sumQ r end.

(** [signal.map((x, n) => ...)]: the callback also gets the index. *)
Fixpoint mapi_from {A B : Type} (f : nat -> A -> B) (n : nat) (l : list A) : list B :=
  match l with [] => [] | x :: r => f n x :: mapi_from f (S n) r end.

(** [Math.round]. *)
Definition js_round (x : Q) : Z := Qfloor (x + (1 # 2)).

(** [EEGProcessor.detrend]. *)
Definition detrend (signal : list Q) : list Q :=
  let mean := sumQ signal / QofNat (length signal) in
  map (fun x => x - mean) signal.

(** A positive integer as a JS number. *)
Definition Qofpos (p : positive) : Q := inject_Z (Z.pos p).

(** [EEGProcessor.notchFilter]: [filtered[i] = signal[i] - signal[i - period]]
    for [i >= period], reading the unfiltered signal.  The rates are
    positive integers, as at its one call ([50] and the processor's
    [sampleRate]): [sampleRate / notchFreq] is then a finite positive
    number and [period = Math.round(...)] a natural number. *)
Definition notchFilter (signal : list Q) (notchFreq sampleRate : positive) : list Q :=
  let period := Z.to_nat (js_round (Qofpos sampleRate / Qofpos notchFreq)) in
  mapi_from (fun i x => if (period <=? i)%nat then x - nth (i - period) signal 0 else x)
    0 signal.

(** [EEGProcessor.extractBandPowers].  The bands object in its key order,
    each with its closed range. *)
Definition band_range (b : BandName) : Q * Q :=
  match b with
  | Delta => (1 # 2, 4) | Theta => (4, 8) | AlphaLow => (8, 10)
  | AlphaHigh => (10, 13) | BetaLow => (13, 17) | BetaHigh => (17, 30)
  | GammaLow => (30, 40) | GammaHigh => (40, 50)
  end.

Definition in_range (low high f : Q) : bool := Qle_bool low f && Qle_bool f high.

(** The loop [for (i ...) if (frequencies[i] >= low && frequencies[i] <= high)
    band.power += psd[i]], starting from [band.power = 0]. *)
Fixpoint band_sum (low high : Q) (frequencies psd : list Q) (i : nat) (acc : Q) : Q :=
  match frequencies with
  | [] => acc
  | f :: fs =>
      band_sum low high fs psd (S i)
        (if in_range low high f then acc + nth i psd 0 else acc)
  end.

Definition band_power (frequencies psd : list Q) (b : BandName) : Q :=
  let (low, high) := band_range b in
  let power := band_sum low high frequencies psd 0 0 in
  let numBins := length (filter (in_range low high) frequencies) in
  if (0 <? numBins)%nat then power / QofNat numBins else power.

Definition extractBandPowers (frequencies psd : list Q) : list (BandName * Q) :=
  map (fun b => (b, band_power frequencies psd b)) bands.

(** The frequency of bin [i]: [i * this.sampleRate / N]. *)
Definition bin_frequencies (sampleRate : Q) (N : nat) : list Q :=
  map (fun i => QofNat i * sampleRate / QofNat N) (seq 0 ((N + 1) / 2)).

(** The loop of [EEGProcessor.findIAF] over the state [(iaf, maxPower)].
    A missing [psd[i]] is [undefined], and [undefined > maxPower] is false:
    reading it as [0] gives the same test, [maxPower] never being negative. *)
Fixpoint findIAF_loop (frequencies psd : list Q) (i : nat) (st : Q * Q) : Q * Q :=
  match frequencies with
  | [] => st
  | freq :: fs =>
      findIAF_loop fs psd (S i)
        (if in_range 8 13 freq && Qltb (snd st) (nth i psd 0) then (freq, nth i psd 0) else st)
  end.

(** [EEGProcessor.findIAF]: [{frequency, power}] as a pair, from
    [iaf = 10] and [maxPower = 0]. *)
Definition findIAF (frequencies psd : list Q) : Q * Q :=
  findIAF_loop frequencies psd 0 (10, 0).

(** The powers of an array of JS numbers, when none is [NaN]. *)
Fixpoint all_numbers (l : list (option Q)) : option (list Q) :=
  match l with
  | [] => Some []
  | Some x :: r => option_map (cons x) (all_numbers r)
  | None :: _ => None
  end.

Record PSD := mkPSD {
  frequencies : list Q;
  psd : list Q;
  bandPowers : list (BandName * Q)
}.

Section ComputePSD.

(** The two numeric primitives the pipeline takes from outside: the Hamming
    weight [0.54 - 0.46 * Math.cos(2 * Math.PI * n / (N - 1))] of sample [n]
    in a window of [N], and fft.js's [transform(output, input)] of a
    [new FFT(size)] (the processor's [this.fft], with [size] its
    [windowSize]): it reads the first [2 * size] entries of [input]
    (interleaved [re, im]) and writes [output[j]] for [j < 2 * size];
    [fft_transform size input j] is that [output[j]], for an [input] of
    [2 * size] numbers. *)
Variable hamming : nat -> nat -> Q.
Variable fft_transform : nat -> list Q -> nat -> Q.

(** [EEGProcessor.applyHammingWindow]. *)
Definition applyHammingWindow (signal : list Q) : list Q :=
  let N := length signal in
  mapi_from (fun n x => x * hamming n N) 0 signal.

(** [output[j]] after [this.fft.transform(output, input)] with
    [output = new Array(N * 2)], for a transform of size [size]; [None] is a
    value that is not a number.  The transform writes only the entries
    [j < 2 * size]; the others stay [undefined].  When [input] has fewer
    than [2 * size] entries the transform reads [undefined] ones, and every
    value it writes is [NaN]. *)
Definition fft_output (size : nat) (input : list Q) (j : nat) : option Q :=
  if (2 * size <=? length input)%nat && (j <? 2 * size)%nat
  then Some (fft_transform size (firstn (2 * size) input) j)
  else None.

(** [(real * real + imag * imag) / (N * N)]: [NaN] ([None]) as soon as
    [real] or [imag] is not a number. *)
Definition bin_power (N : nat) (real imag : option Q) : option Q :=
  match real, imag with
  | Some re, Some im => Some ((re * re + im * im) / (QofNat N * QofNat N))
  | _, _ => None
  end.

(** The [psd] array that [EEGProcessor.computePSD] builds, in a processor
    built with [sampleRate] whose [this.fft] is a [new FFT(fftSize)]: the
    pipeline runs once over the whole [signal], and the loop
    [for (i = 0; i < N / 2; i++)] visits [(N + 1) / 2] bins. *)
Definition psd_values (fftSize : nat) (sampleRate : positive) (signal : list Q)
  : list (option Q) :=
  let N := length signal in
  let processed := detrend signal in
  let processed := notchFilter processed 50 sampleRate in
  let processed := applyHammingWindow processed in
  let input := flat_map (fun x => [x; 0]) processed in
  map (fun i => bin_power N (fft_output fftSize input (2 * i))
                            (fft_output fftSize input (2 * i + 1)))
    (seq 0 ((N + 1) / 2)).

(** [EEGProcessor.computePSD]: [Some] of the returned object when every
    power is a number; [None] when some power is [NaN] (the object is then
    returned with those [NaN] entries, which [PSD] does not hold). *)
Definition computePSD (fftSize : nat) (sampleRate : positive) (signal : list Q)
  : option PSD :=
  match all_numbers (psd_values fftSize sampleRate signal) with
  | Some psd =>
      let frequencies := bin_frequencies (Qofpos sampleRate) (length signal) in
      Some (mkPSD frequencies psd (extractBandPowers frequencies psd))
  | None => None
  end.

(** [CRBCalculator.calculatePSD] of [new CRBCalculator(512)], whose
    processor is [new EEGProcessor(512, 512)]: [null] is [None]. *)
Definition calculatePSD (eegDataArray : list Q) : option (option PSD) :=
  if (length eegDataArray <? 512)%nat then None
  else Some (computePSD 512 512 eegDataArray).

End ComputePSD.

Fixpoint findIndex {A : Type} (p : A -> bool) (l : list A) : option nat :=
  match l with
  | [] => None
  | x :: r => if p x then Some 0%nat else option_map S (findIndex p r)
  end.

Record IAFResult := mkIAF {
  frequency : Q;
  power : Q;
  desynchronization : Q;
  restPSD : PSD;
  taskPSD : PSD
}.

(** The loop state [(maxDesync, iafFrequency, iafPower)]: the three are
    assigned together, so [None] stands for [(-Infinity, null, null)]. *)
Definition iaf_step (frequencies restPowers taskPowers : list Q)
    (st : option (Q * Q * Q)) (i : nat) : option (Q * Q * Q) :=
  let desync := nth i restPowers 0 - nth i taskPowers 0 in
  let above := match st with None => true | Some (maxDesync, _, _) => Qltb maxDesync desync end in
  if above && Qltb (nth i taskPowers 0) (nth i restPowers 0)
  then Some (desync, nth i frequencies 0, nth i restPowers 0)
  else st.

(** [CRBCalculator.calculateIAF]. *)
Definition calculateIAF (restPSD taskPSD : option PSD) : option IAFResult :=
  match restPSD, taskPSD with
  | Some r, Some t =>
    let frequencies := frequencies r in
    let restPowers := psd r in
    let taskPowers := psd t in
    match findIndex (fun f => Qle_bool 6 f) frequencies,
          findIndex (fun f => negb (Qle_bool f 14)) frequencies with
    | Some startIdx, Some endIdx =>
      match fold_left (iaf_step frequencies restPowers taskPowers)
              (seq startIdx (endIdx - startIdx)) None with
      | None => None
      | Some (maxDesync, iafFrequency, iafPower) =>
          if Qeq_bool iafFrequency 0 then None
          else Some (mkIAF iafFrequency iafPower maxDesync r t)
      end
    | _, _ => None
    end
  | _, _ => None
  end.

Section Processor.

Variable hamming : nat -> nat -> Q.
Variable fft_transform : nat -> list Q -> nat -> Q.

Definition overlap : Q := 1 # 2.

(** [Math.floor(this.windowSize * this.overlap)]. *)
Definition slideAmount (windowSize : nat) : nat :=
  Z.to_nat (Qfloor (QofNat windowSize * overlap)).

(** [EEGProcessor.addSample] of a processor built with [sampleRate] and
    [windowSize] (so [this.fft] is a [new FFT(windowSize)]): the returned
    [computePSD] result ([null] is [None]) and the new [this.buffer]. *)
Definition addSample (sampleRate : positive) (windowSize : nat) (buffer : list Q) (rawEEG : Q)
  : option (option PSD) * list Q :=
  let buffer := buffer ++ [rawEEG] in
  if (windowSize <=? length buffer)%nat then
    let window := firstn windowSize buffer in
    let psdResult := computePSD hamming fft_transform windowSize sampleRate window in
    (Some psdResult, skipn (slideAmount windowSize) buffer)
  else (None, buffer).

(** One [addSample] call per sample, as [handleDataReceived] of
    [BleContext] makes them: the [computePSD] results returned, in order,
    and the final buffer. *)
Fixpoint addSamples (sampleRate : positive) (windowSize : nat) (buffer : list Q) (samples : list Q)
  : list (option PSD) * list Q :=
  match samples with
  | [] => ([], buffer)
  | x :: xs =>
      let (o, b) := addSample sampleRate windowSize buffer x in
      let (out, b') := addSamples sampleRate windowSize b xs in
      (match o with Some p => p :: out | None => out end, b')
  end.

End Processor.

(** The spec's band power: the arithmetic mean of the power of the bins
    whose frequency lies in the band's closed range, [0] for no bin. *)
Definition band_bins (low high : Q) (fs ps : list Q) : list Q :=
  map snd (filter (fun fp => in_range low high (fst fp)) (combine fs ps)).

Definition mean (l : list Q) : Q :=
  match l with [] => 0 | _ => sumQ l / QofNat (length l) end.

Definition spec_band_mean (b : BandName) (fs ps : list Q) : Q :=
  let (low, high) := band_range b in mean (band_bins low high fs ps).



End Spectral.

(** [src/mobile/context/BleContext.jsx]: the bounded histories that
    [handleDataReceived] keeps, [[...prev, value].slice(-k)] with
    [k = BLE_CONFIG.MAX_POINTS = 300] for each band and [k = 1000] for the raw
    samples. *)
Module BleContext.

(** [arr.slice(-k)]: the last [k] elements, the whole array when it is
    shorter; [slice(-0)] is [slice(0)], the whole array. *)
Definition slice_neg {A : Type} (k : nat) (l : list A) : list A :=
  if (k =? 0)%nat then l else skipn (length l - k) l.

Definition push_recent {A : Type} (k : nat) (prev : list A) (x : A) : list A :=
  slice_neg k (prev ++ [x]).

End BleContext.

(** * The decoder's loop *)

Module DecoderFacts.

Import ThinkGear.
Open Scope Z_scope.

Lemma drop_nonsync_idem (b : list Z) : drop_nonsync (drop_nonsync b) = drop_nonsync b.
Proof.
  induction b as [|x r IH]; simpl; [reflexivity|].
  destruct (x =? SYNC) eqn:E; [simpl; rewrite E; reflexivity | exact IH].
Qed.

Lemma drop_nonsync_app (b c : list Z) :
  drop_nonsync (b ++ c) =
  match drop_nonsync b with [] => drop_nonsync c | d => d ++ c end.
Proof.
  induction b as [|x r IH]; simpl; [reflexivity|].
  destruct (x =? SYNC); [reflexivity | exact IH].
Qed.

Lemma drop_nonsync_suffix (b : list Z) : exists pre, b = pre ++ drop_nonsync b.
Proof.
  induction b as [|x r [pre IH]]; simpl; [exists []; reflexivity|].
  destruct (x =? SYNC); [exists []; reflexivity | exists (x :: pre); simpl; congruence].
Qed.

Lemma frame_step_stop (d d' : list Z) : frame_step d = Stop d' -> d' = d.
Proof.
  unfold frame_step; intros H.
  destruct (length d <? 2)%nat; [congruence|].
  destruct (negb _); [discriminate|].
  destruct (length d <? 3)%nat; [congruence|].
  destruct (length d <? _)%nat; [congruence|].
  destruct (negb _); [discriminate|].
  destruct (keep_packet _); discriminate.
Qed.

Lemma frame_step_cont (d d' : list Z) o :
  frame_step d = Cont o d' -> exists pre, d = pre ++ d' /\ (1 <= length pre)%nat.
Proof.
  unfold frame_step; intros H.
  destruct (length d <? 2)%nat eqn:E1; [discriminate|].
  apply Nat.ltb_ge in E1.
  destruct (negb _).
  { injection H as <- <-. destruct d as [|x r]; simpl in *; [lia|].
    exists [x]; simpl; split; [reflexivity | lia]. }
  destruct (length d <? 3)%nat; [discriminate|].
  destruct (length d <? _)%nat eqn:E3; [discriminate|].
  apply Nat.ltb_ge in E3.
  assert (Hs : d' = skipn (3 + Z.to_nat (nthZ d 2) + 1) d).
  { destruct (negb _); [congruence|]. destruct (keep_packet _); congruence. }
  subst d'. exists (firstn (3 + Z.to_nat (nthZ d 2) + 1) d).
  rewrite firstn_skipn; split; [reflexivity|].
  rewrite length_firstn; lia.
Qed.

Lemma body_cont (b b' : list Z) o :
  body b = Cont o b' -> exists pre, b = pre ++ b' /\ (1 <= length pre)%nat.
Proof.
  unfold body; intros H.
  destruct (frame_step_cont _ _ _ H) as [pre [Hd Hl]].
  destruct (drop_nonsync_suffix b) as [pre0 H0].
  exists (pre0 ++ pre); rewrite <- app_assoc, <- Hd, length_app; split; [exact H0 | lia].
Qed.

Lemma body_shorter (b b' : list Z) o :
  body b = Cont o b' -> (length b' < length b)%nat.
Proof.
  intros H; destruct (body_cont _ _ _ H) as [pre [-> Hl]]; rewrite length_app; lia.
Qed.

Lemma parse_loop_fuel (n m : nat) (b : list Z) :
  (length b < n)%nat -> (length b < m)%nat -> parse_loop n b = parse_loop m b.
Proof.
  revert m b; induction n as [|n IH]; intros m b Hn Hm; [lia|].
  destruct m as [|m]; [lia|]; simpl.
  destruct (length b <? MIN_PACKET_LENGTH)%nat; [reflexivity|].
  destruct (body b) as [b'|o b'] eqn:E; [reflexivity|].
  pose proof (body_shorter _ _ _ E).
  rewrite (IH m b') by lia; reflexivity.
Qed.

Lemma loop_eq (b : list Z) :
  loop b =
  if (length b <? MIN_PACKET_LENGTH)%nat then ([], b) else
  match body b with
  | Stop b' => ([], b')
  | Cont o b' =>
      let (out, b'') := loop b' in
      (match o with Some p => p :: out | None => out end, b'')
  end.
Proof.
  unfold loop at 1; simpl.
  destruct (length b <? MIN_PACKET_LENGTH)%nat; [reflexivity|].
  destruct (body b) as [b'|o b'] eqn:E; [reflexivity|].
  pose proof (body_shorter _ _ _ E).
  unfold loop; rewrite (parse_loop_fuel (length b) (S (length b'))) by lia.
  reflexivity.
Qed.


Lemma nthZ_app_l (d c : list Z) (i : nat) : (i < length d)%nat -> nthZ (d ++ c) i = nthZ d i.
Proof. intros H; unfold nthZ; apply app_nth1; exact H. Qed.

(** A round that did not wait for input is not changed by bytes appended
    behind the buffer. *)
Lemma frame_step_app (d c d' : list Z) o :
  frame_step d = Cont o d' -> frame_step (d ++ c) = Cont o (d' ++ c).
Proof.
  unfold frame_step; intros H.
  destruct (length d <? 2)%nat eqn:E1; [discriminate|].
  apply Nat.ltb_ge in E1.
  rewrite length_app, (nthZ_app_l d c 1) by lia.
  replace (length d + length c <? 2)%nat with false by (symmetry; apply Nat.ltb_ge; lia).
  destruct (negb (nthZ d 1 =? SYNC)).
  { injection H as <- <-. destruct d as [|x r]; simpl in *; [lia | reflexivity]. }
  destruct (length d <? 3)%nat eqn:E2; [discriminate|].
  apply Nat.ltb_ge in E2.
  rewrite (nthZ_app_l d c 2) by lia.
  replace (length d + length c <? 3)%nat with false by (symmetry; apply Nat.ltb_ge; lia).
  set (t := (3 + Z.to_nat (nthZ d 2) + 1)%nat) in *.
  destruct (length d <? t)%nat eqn:E3; [discriminate|].
  apply Nat.ltb_ge in E3.
  replace (length d + length c <? t)%nat with false by (symmetry; apply Nat.ltb_ge; lia).
  assert (Hf : firstn t (d ++ c) = firstn t d).
  { rewrite firstn_app; replace (t - length d)%nat with 0%nat by lia;
    rewrite firstn_O, app_nil_r; reflexivity. }
  assert (Hk : skipn t (d ++ c) = skipn t d ++ c).
  { rewrite skipn_app; replace (t - length d)%nat with 0%nat by lia; reflexivity. }
  rewrite Hf, Hk.
  destruct (negb _); [injection H as <- <-; reflexivity|].
  destruct (keep_packet _); injection H as <- <-; reflexivity.
Qed.

Lemma body_app (b c b' : list Z) o :
  body b = Cont o b' -> body (b ++ c) = Cont o (b' ++ c).
Proof.
  unfold body; rewrite drop_nonsync_app.
  destruct (drop_nonsync b) as [|x r] eqn:D; [discriminate|].
  apply frame_step_app.
Qed.

Lemma body_stop (b b' : list Z) : body b = Stop b' -> b' = drop_nonsync b.
Proof. unfold body; apply frame_step_stop. Qed.

(** On fewer than four bytes a round never emits a packet. *)
Lemma frame_step_short (d : list Z) :
  (length d < 4)%nat ->
  (exists b, frame_step d = Stop b) \/
  (exists b, frame_step d = Cont None b /\ (length b < 4)%nat).
Proof.
  intros Hd; unfold frame_step.
  destruct (length d <? 2)%nat; [left; eauto|].
  destruct (negb _).
  { right; exists (tl d); split; [reflexivity|]. destruct d; simpl in *; lia. }
  destruct (length d <? 3)%nat; [left; eauto|].
  replace (length d <? _)%nat with true by (symmetry; apply Nat.ltb_lt; lia).
  left; eauto.
Qed.

Lemma loop_short (b : list Z) : (length b < 4)%nat -> loop b = ([], b).
Proof.
  intros H; rewrite loop_eq.
  replace (length b <? MIN_PACKET_LENGTH)%nat with true by (symmetry; apply Nat.ltb_lt; exact H).
  reflexivity.
Qed.

(** The sync search may be run ahead of the loop without changing the
    packets. *)
Lemma loop_drop (y : list Z) : fst (loop y) = fst (loop (drop_nonsync y)).
Proof.
  destruct (drop_nonsync_suffix y) as [pre Hy].
  assert (Hle : (length (drop_nonsync y) <= length y)%nat)
    by (rewrite Hy at 2; rewrite length_app; lia).
  destruct (Nat.lt_ge_cases (length y) 4) as [Hs|Hs].
  { rewrite !loop_short by lia; reflexivity. }
  rewrite (loop_eq y).
  replace (length y <? MIN_PACKET_LENGTH)%nat with false by (symmetry; apply Nat.ltb_ge; exact Hs).
  destruct (Nat.lt_ge_cases (length (drop_nonsync y)) 4) as [Hd|Hd].
  - rewrite (loop_short (drop_nonsync y)) by exact Hd.
    unfold body; destruct (frame_step_short _ Hd) as [[b E]|[b [E Hb]]]; rewrite E.
    + reflexivity.
    + rewrite (loop_short b Hb); reflexivity.
  - rewrite (loop_eq (drop_nonsync y)).
    replace (length (drop_nonsync y) <? MIN_PACKET_LENGTH)%nat with false
      by (symmetry; apply Nat.ltb_ge; exact Hd).
    unfold body; rewrite drop_nonsync_idem; reflexivity.
Qed.

(** The packets of a buffer extended by [c] are those of the buffer, then
    those of what it leaves behind extended by [c]. *)
Lemma loop_app (b c : list Z) :
  fst (loop (b ++ c)) = fst (loop b) ++ fst (loop (snd (loop b) ++ c)).
Proof.
  induction b as [b IH] using (well_founded_induction
    (Wf_nat.well_founded_ltof _ (@length Z))).
  unfold Wf_nat.ltof in IH.
  destruct (Nat.lt_ge_cases (length b) 4) as [Hs|Hs].
  { rewrite (loop_short b Hs); reflexivity. }
  destruct (body b) as [b'|o b'] eqn:E.
  - rewrite (loop_eq b).
    replace (length b <? MIN_PACKET_LENGTH)%nat with false by (symmetry; apply Nat.ltb_ge; exact Hs).
    rewrite E; simpl.
    rewrite (loop_drop (b ++ c)), (loop_drop (b' ++ c)).
    rewrite (body_stop _ _ E), !drop_nonsync_app, drop_nonsync_idem.
    reflexivity.
  - assert (Hlt := body_shorter _ _ _ E).
    specialize (IH b' Hlt).
    rewrite (loop_eq (b ++ c)), (loop_eq b).
    rewrite length_app.
    replace (length b + length c <? MIN_PACKET_LENGTH)%nat with false
      by (symmetry; apply Nat.ltb_ge; unfold MIN_PACKET_LENGTH; lia).
    replace (length b <? MIN_PACKET_LENGTH)%nat with false by (symmetry; apply Nat.ltb_ge; exact Hs).
    rewrite (body_app _ _ _ _ E), E.
    destruct (loop b') as [o1 s1] eqn:L1.
    destruct (loop (b' ++ c)) as [o2 s2] eqn:L2.
    simpl in *; subst o2; destruct o; reflexivity.
Qed.

Lemma feed_chunks_cons (chunks : list (list Z)) (buffer c : list Z) :
  fst (feed_chunks buffer (c :: chunks)) = fst (loop (buffer ++ concat (c :: chunks))).
Proof.
  revert buffer c; induction chunks as [|c' cs IH]; intros buffer c.
  - simpl; unfold parseStream; rewrite !app_nil_r.
    destruct (loop (buffer ++ c)) as [o1 b1]; simpl; rewrite app_nil_r; reflexivity.
  - change (concat (c :: c' :: cs)) with (c ++ concat (c' :: cs)).
    rewrite app_assoc, loop_app.
    change (feed_chunks buffer (c :: c' :: cs)) with
      (let (o1, b1) := parseStream buffer c in
       let (o2, b2) := feed_chunks b1 (c' :: cs) in (o1 ++ o2, b2)).
    unfold parseStream.
    destruct (loop (buffer ++ c)) as [o1 b1] eqn:L.
    specialize (IH b1 c').
    destruct (feed_chunks b1 (c' :: cs)) as [o2 b2]; simpl in *.
    rewrite IH; reflexivity.
Qed.

Lemma length_frame (p : list Z) (chk : Z) : length (frame p chk) = (3 + length p + 1)%nat.
Proof. unfold frame; simpl; rewrite length_app; simpl; lia. Qed.

(** One round on a buffer that starts with a whole frame consumes exactly
    that frame. *)
Lemma body_frame (p rest : list Z) (chk : Z) :
  (length p <= 255)%nat ->
  body (frame p chk ++ rest) =
  if negb (checksum p =? chk) then Cont None rest else
  if keep_packet (decode_payload p)
  then Cont (Some (mkPacket (decode_payload p) true)) rest
  else Cont None rest.
Proof.
  intros Hp; unfold body.
  assert (Hd : drop_nonsync (frame p chk ++ rest) = frame p chk ++ rest) by reflexivity.
  rewrite Hd; unfold frame_step; cbv zeta.
  assert (Hlen : length (frame p chk ++ rest) = (3 + length p + 1 + length rest)%nat)
    by (rewrite length_app, length_frame; lia).
  assert (H1 : nthZ (frame p chk ++ rest) 1 = SYNC) by reflexivity.
  assert (H2 : nthZ (frame p chk ++ rest) 2 = Z.of_nat (length p)) by reflexivity.
  rewrite Hlen, H1, H2, Nat2Z.id, Z.eqb_refl.
  replace (3 + length p + 1 + length rest <? 2)%nat with false
    by (symmetry; apply Nat.ltb_ge; lia).
  replace (3 + length p + 1 + length rest <? 3)%nat with false
    by (symmetry; apply Nat.ltb_ge; lia).
  replace (3 + length p + 1 + length rest <? 3 + length p + 1)%nat with false
    by (symmetry; apply Nat.ltb_ge; lia).
  assert (Hf : firstn (3 + length p + 1) (frame p chk ++ rest) = frame p chk).
  { rewrite firstn_app, length_frame, Nat.sub_diag, firstn_O, app_nil_r.
    apply firstn_all2; rewrite length_frame; lia. }
  assert (Hk : skipn (3 + length p + 1) (frame p chk ++ rest) = rest).
  { rewrite skipn_app, length_frame, Nat.sub_diag, skipn_all2 by (rewrite length_frame; lia).
    reflexivity. }
  assert (Hpd : firstn (length p) (skipn 3 (frame p chk)) = p).
  { change (skipn 3 (frame p chk)) with (p ++ [chk]).
    rewrite firstn_app, Nat.sub_diag, firstn_O, app_nil_r, firstn_all; reflexivity. }
  assert (Hc : nthZ (frame p chk) (length (frame p chk) - 1) = chk).
  { rewrite length_frame. replace (3 + length p + 1 - 1)%nat with (3 + length p)%nat by lia.
    unfold nthZ, frame; simpl.
    rewrite app_nth2, Nat.sub_diag by lia; reflexivity. }
  rewrite Hf, Hk, Hpd, Hc; fold (checksum p).
  destruct (checksum p =? chk); reflexivity.
Qed.

Lemma loop_frame (p rest : list Z) (chk : Z) :
  (length p <= 255)%nat ->
  fst (loop (frame p chk ++ rest)) =
  (if negb (checksum p =? chk) then [] else
   if keep_packet (decode_payload p) then [mkPacket (decode_payload p) true] else [])
  ++ fst (loop rest).
Proof.
  intros Hp; rewrite (loop_eq (frame p chk ++ rest)).
  rewrite length_app, length_frame.
  replace (3 + length p + 1 + length rest <? MIN_PACKET_LENGTH)%nat with false
    by (symmetry; apply Nat.ltb_ge; unfold MIN_PACKET_LENGTH; lia).
  rewrite (body_frame p rest chk Hp).
  destruct (negb _); [|destruct (keep_packet _)];
    destruct (loop rest); reflexivity.
Qed.

Lemma bytes_ok_app (a b : list Z) : bytes_ok (a ++ b) = bytes_ok a && bytes_ok b.
Proof. unfold bytes_ok; apply forallb_app. Qed.

Lemma nthZ_byte (d : list Z) (i : nat) :
  bytes_ok d = true -> (i < length d)%nat -> 0 <= nthZ d i <= 255.
Proof.
  intros H Hi; unfold bytes_ok in H; rewrite forallb_forall in H.
  specialize (H (nthZ d i) (nth_In d 0 Hi)).
  apply andb_prop in H as [H1 H2]; apply Z.leb_le in H1, H2; lia.
Qed.

(** A round that waits for input leaves fewer bytes than the largest frame. *)
Lemma frame_step_stop_bound (d d' : list Z) :
  bytes_ok d = true -> frame_step d = Stop d' -> (length d' <= 258)%nat.
Proof.
  intros Hb H; pose proof (frame_step_stop _ _ H) as ->.
  unfold frame_step in H; cbv zeta in H.
  destruct (length d <? 2)%nat eqn:E1; [apply Nat.ltb_lt in E1; lia|].
  destruct (negb _); [discriminate|].
  destruct (length d <? 3)%nat eqn:E2; [apply Nat.ltb_lt in E2; lia|].
  apply Nat.ltb_ge in E2.
  pose proof (nthZ_byte d 2 Hb ltac:(lia)) as Hn.
  destruct (length d <? 3 + Z.to_nat (nthZ d 2) + 1)%nat eqn:E3;
    [apply Nat.ltb_lt in E3; lia|].
  destruct (negb _); [discriminate|].
  destruct (keep_packet _); discriminate.
Qed.

Lemma loop_bound (b : list Z) :
  bytes_ok b = true -> (length (snd (loop b)) <= 258)%nat.
Proof.
  induction b as [b IH] using (well_founded_induction
    (Wf_nat.well_founded_ltof _ (@length Z))).
  unfold Wf_nat.ltof in IH; intros Hb.
  rewrite loop_eq.
  destruct (length b <? MIN_PACKET_LENGTH)%nat eqn:E.
  { apply Nat.ltb_lt in E; unfold MIN_PACKET_LENGTH in E; simpl; lia. }
  destruct (body b) as [b'|o b'] eqn:B.
  - destruct (drop_nonsync_suffix b) as [pre Hpre].
    assert (Hd : bytes_ok (drop_nonsync b) = true)
      by (rewrite Hpre, bytes_ok_app in Hb; apply andb_prop in Hb; tauto).
    exact (frame_step_stop_bound _ _ Hd B).
  - destruct (body_cont _ _ _ B) as [pre [Hpre Hl]].
    assert (Hb' : bytes_ok b' = true)
      by (rewrite Hpre, bytes_ok_app in Hb; apply andb_prop in Hb; tauto).
    assert (Hlt : (length b' < length b)%nat) by (rewrite Hpre, length_app; lia).
    specialize (IH b' Hlt Hb').
    destruct (loop b'); exact IH.
Qed.

(** ** The claims on the decoder *)

(** Claim C1 (as the code has it).  A complete frame whose checksum byte is
    not [0xFF - (sum(payload) & 0xFF)] yields no packet, and the round
    consumes the whole claimed frame ([3 + LEN + 1] bytes): the sync search
    resumes at the byte after the checksum byte, not one byte after the
    first sync byte. *)
Theorem checksum_failure_consumes_frame (p rest : list Z) (chk : Z)
  (Hlen : (length p <= 255)%nat) (Hbad : (checksum p =? chk) = false) :
  body (frame p chk ++ rest) = Cont None rest /\
  fst (loop (frame p chk ++ rest)) = fst (loop rest).
Proof.
  split.
  - rewrite (body_frame p rest chk Hlen), Hbad; reflexivity.
  - rewrite (loop_frame p rest chk Hlen), Hbad; reflexivity.
Qed.

Lemma checksum_failure_consumes_frame_witness :
  le (length [2; 5]) 255 /\ (checksum [2; 5] =? 250) = false /\
  body (frame [2; 5] 250 ++ [170]) = Cont None [170] /\
  fst (loop (frame [2; 5] 250 ++ [170])) = fst (loop [170]).
Proof.
  split; [simpl; lia|]; split; [reflexivity|].
  apply (checksum_failure_consumes_frame [2; 5] [170] 250); [simpl; lia | reflexivity].
Defined.

(** A corrupted frame [AA AA 04 AA AA 02 02 05 F8]: its checksum byte [05]
    fails, the round drops all nine bytes but the last, and nothing is
    emitted; resuming one byte further on would have found the valid frame
    [AA AA 02 02 05 F8] inside it. *)
Lemma checksum_failure_consumes_frame_counterexample :
  body [170; 170; 4; 170; 170; 2; 2; 5; 248] = Cont None [248] /\
  fst (parseStream [] [170; 170; 4; 170; 170; 2; 2; 5; 248]) = [] /\
  fst (parseStream [] (skipn 1 [170; 170; 4; 170; 170; 2; 2; 5; 248])) =
    [mkPacket (set_poorSignal 5 emptyParsed) true].
Proof. split; [|split]; reflexivity. Qed.

(** Claim C2 (as the code has it).  A checksum-valid frame emits a packet
    exactly when its decoded fields pass the output filter (attention,
    meditation or eegBands present, or poorSignal above 0).  The payload
    [80 02 01 2C] decodes to [{rawEEG: 300}] alone, which the filter
    drops. *)
Theorem valid_frame_output_filter (p rest : list Z) (Hlen : (length p <= 255)%nat) :
  fst (loop (frame p (checksum p) ++ rest)) =
    (if keep_packet (decode_payload p) then [mkPacket (decode_payload p) true] else [])
    ++ fst (loop rest) /\
  decode_payload [128; 2; 1; 44] = set_rawEEG 300 emptyParsed /\
  keep_packet (set_rawEEG 300 emptyParsed) = false.
Proof.
  split; [|split; reflexivity].
  rewrite (loop_frame p rest (checksum p) Hlen), Z.eqb_refl; reflexivity.
Qed.

Lemma valid_frame_output_filter_witness :
  le (length [4; 60]) 255 /\
  fst (loop (frame [4; 60] (checksum [4; 60]) ++ [])) =
    (if keep_packet (decode_payload [4; 60])
     then [mkPacket (decode_payload [4; 60]) true] else []) ++ fst (loop []).
Proof.
  assert (Hlen : le (length [4; 60]) 255) by (simpl; lia).
  split; [exact Hlen|].
  exact (proj1 (valid_frame_output_filter [4; 60] [] Hlen)).
Defined.

(** The valid frame [AA AA 04 80 02 01 2C 50] carries rawEEG 300 alone and
    yields no packet. *)
Lemma valid_frame_output_filter_counterexample :
  checksum [128; 2; 1; 44] = 80 /\
  decode_payload [128; 2; 1; 44] = set_rawEEG 300 emptyParsed /\
  parseStream [] (frame [128; 2; 1; 44] 80) = ([], []).
Proof. split; [|split]; reflexivity. Qed.

(** Claim C7.  Feeding a byte sequence in consecutive chunks, one
    [parseStream] call per chunk from an empty buffer, emits the same packets
    in the same order as feeding it in one call, wherever the splits fall. *)
Theorem chunked_feed_same_packets (chunks : list (list Z)) :
  fst (feed_chunks [] chunks) = fst (parseStream [] (concat chunks)).
Proof.
  destruct chunks as [|c cs]; [reflexivity|].
  rewrite feed_chunks_cons; reflexivity.
Qed.

(** Claim C8 (as the code has it).  The checksum of payload [02 05] is
    [0xFF - 7 = 0xF8]: [AA AA 02 02 05 F8] emits one packet [{poorSignal: 5}],
    while [AA AA 02 02 05 FA] fails the checksum and emits nothing. *)
Theorem poorSignal_frame_example :
  parseStream [] [170; 170; 2; 2; 5; 248] =
    ([mkPacket (set_poorSignal 5 emptyParsed) true], []) /\
  parseStream [] [170; 170; 2; 2; 5; 250] = ([], []).
Proof. split; reflexivity. Qed.

Lemma poorSignal_frame_example_counterexample :
  checksum [2; 5] = 248 /\ parseStream [] [170; 170; 2; 2; 5; 250] = ([], []).
Proof. split; reflexivity. Qed.

(** Claim C9.  A checksum-valid frame whose decoded fields are poorSignal 0
    with no attention, meditation or eegBands emits no packet: the frame is
    consumed and the output is that of the rest of the stream. *)
Theorem poorSignal_zero_dropped (p rest : list Z)
  (Hlen : (length p <= 255)%nat)
  (Hps : poorSignal (decode_payload p) = Some 0)
  (Hat : attention (decode_payload p) = None)
  (Hmed : meditation (decode_payload p) = None)
  (Hbands : eegBands (decode_payload p) = None) :
  fst (parseStream [] (frame p (checksum p) ++ rest)) = fst (parseStream [] rest).
Proof.
  unfold parseStream; rewrite !app_nil_l.
  rewrite (loop_frame p rest (checksum p) Hlen), Z.eqb_refl; simpl negb.
  unfold keep_packet; rewrite Hat, Hmed, Hbands, Hps; reflexivity.
Qed.

Lemma poorSignal_zero_dropped_witness :
  fst (parseStream [] (frame [2; 0] (checksum [2; 0]) ++ [170; 170; 2; 4; 80; 175]))
  = fst (parseStream [] [170; 170; 2; 4; 80; 175]).
Proof.
  apply poorSignal_zero_dropped; [simpl; lia | reflexivity | reflexivity | reflexivity | reflexivity].
Defined.

(** Claim C10.  When every byte is in [0, 255], the buffer left by a
    [parseStream] call holds at most 258 bytes. *)
Theorem parseStream_buffer_bound (buffer newPayload : list Z)
  (Hbytes : bytes_ok (buffer ++ newPayload) = true) :
  (length (snd (parseStream buffer newPayload)) <= 258)%nat.
Proof. unfold parseStream; apply loop_bound, Hbytes. Qed.

Lemma parseStream_buffer_bound_witness :
  bytes_ok ([170; 170] ++ [200; 1; 2]) = true /\
  le (length (snd (parseStream [170; 170] [200; 1; 2]))) 258.
Proof.
  split; [reflexivity|].
  apply parseStream_buffer_bound; reflexivity.
Defined.

End DecoderFacts.

(** * The spectral engine and the IAF comparison *)

Module SpectralFacts.

Import ThinkGear Spectral.
Open Scope Q_scope.

Lemma Qltb_iff (x y : Q) : Qltb x y = true <-> x < y.
Proof.
  unfold Qltb; rewrite negb_true_iff; split.
  - intros H; apply Qnot_le_lt; intros H'; apply Qle_bool_iff in H'; congruence.
  - intros H; destruct (Qle_bool y x) eqn:E; [|reflexivity].
    apply Qle_bool_iff in E; exfalso; exact (Qlt_not_le _ _ H E).
Qed.

Lemma findIndex_some {A : Type} (p : A -> bool) (l : list A) (s : nat) (d : A) :
  findIndex p l = Some s ->
  (s < length l)%nat /\ p (nth s l d) = true /\
  (forall k, (k < s)%nat -> p (nth k l d) = false).
Proof.
  revert s; induction l as [|x r IH]; intros s H; simpl in H; [discriminate|].
  destruct (p x) eqn:E.
  - injection H as <-; simpl; split; [lia|]; split; [exact E | intros k Hk; lia].
  - destruct (findIndex p r) as [s'|] eqn:F; simpl in H; [|discriminate].
    injection H as <-; destruct (IH s' eq_refl) as [H1 [H2 H3]].
    simpl; split; [lia|]; split; [exact H2|].
    intros [|k] Hk; [exact E | apply H3; lia].
Qed.

Lemma findIndex_exists {A : Type} (p : A -> bool) (l : list A) (k : nat) (d : A) :
  (k < length l)%nat -> p (nth k l d) = true -> exists s, findIndex p l = Some s.
Proof.
  revert k; induction l as [|x r IH]; intros k Hk Hp; simpl in *; [lia|].
  destruct (p x) eqn:E; [eauto|].
  destruct k as [|k]; [simpl in Hp; congruence|].
  destruct (IH k ltac:(lia) Hp) as [s' ->]; simpl; eauto.
Qed.

(** On a list along which [p] stays true once it holds, [findIndex p] splits
    the indices. *)
Lemma findIndex_monotone (p : Q -> bool) (l : list Q) (s : nat) :
  (forall i j, (i <= j < length l)%nat -> p (nth i l 0) = true -> p (nth j l 0) = true) ->
  findIndex p l = Some s ->
  forall k, (k < length l)%nat -> (p (nth k l 0) = true <-> (s <= k)%nat).
Proof.
  intros Hm Hs k Hk; destruct (findIndex_some p l s 0 Hs) as [H1 [H2 H3]]; split.
  - intros Hp; destruct (Nat.lt_ge_cases k s) as [Hlt|Hge]; [|exact Hge].
    rewrite (H3 k Hlt) in Hp; discriminate.
  - intros Hle; apply (Hm s k); [lia | exact H2].
Qed.

Lemma length_bin_frequencies (sampleRate : Q) (N : nat) :
  length (bin_frequencies sampleRate N) = ((N + 1) / 2)%nat.
Proof. unfold bin_frequencies; rewrite length_map, length_seq; reflexivity. Qed.

Lemma nth_map_seq {A : Type} (f : nat -> A) (h k : nat) (d : A) :
  (k < h)%nat -> nth k (map f (seq 0 h)) d = f k.
Proof.
  intros Hk; rewrite nth_indep with (d' := f 0%nat) by (rewrite length_map, length_seq; exact Hk).
  rewrite map_nth, seq_nth by exact Hk; reflexivity.
Qed.

Lemma nth_bin_frequencies (sampleRate : Q) (N k : nat) :
  (k < (N + 1) / 2)%nat ->
  nth k (bin_frequencies sampleRate N) 0 = QofNat k * sampleRate / QofNat N.
Proof.
  intros Hk; unfold bin_frequencies; rewrite nth_map_seq by exact Hk; reflexivity.
Qed.

Lemma QofNat_le (a b : nat) : (a <= b)%nat -> QofNat a <= QofNat b.
Proof. intros H; unfold QofNat; rewrite <- Zle_Qle; lia. Qed.

Lemma QofNat_pos (a : nat) : (0 < a)%nat -> 0 < QofNat a.
Proof. intros H; unfold QofNat; rewrite <- (Zlt_Qlt 0); lia. Qed.

Lemma bin_frequencies_mono (N i j : nat) :
  (0 < N)%nat -> (i <= j < (N + 1) / 2)%nat ->
  nth i (bin_frequencies 512 N) 0 <= nth j (bin_frequencies 512 N) 0.
Proof.
  intros HN Hij; rewrite !nth_bin_frequencies by lia.
  unfold Qdiv; apply Qmult_le_compat_r.
  - apply Qmult_le_compat_r; [apply QofNat_le; lia | unfold Qle; simpl; lia].
  - apply Qinv_le_0_compat, Qlt_le_weak, QofNat_pos; exact HN.
Qed.

Lemma half_spec (N : nat) : (N <= 2 * ((N + 1) / 2) <= N + 1)%nat.
Proof.
  pose proof (Nat.div_mod (N + 1) 2 ltac:(lia)).
  pose proof (Nat.mod_upper_bound (N + 1) 2 ltac:(lia)); lia.
Qed.

(** The highest bin of a window of at least 512 samples lies above 14 Hz. *)
Lemma bin_frequencies_top (N : nat) :
  (512 <= N)%nat -> 14 < nth ((N + 1) / 2 - 1) (bin_frequencies 512 N) 0.
Proof.
  intros HN; pose proof (half_spec N).
  rewrite nth_bin_frequencies by lia.
  apply Qlt_shift_div_l; [apply QofNat_pos; lia|].
  remember ((N + 1) / 2)%nat as h.
  unfold QofNat; change 14 with (inject_Z 14); change 512 with (inject_Z 512).
  rewrite <- !inject_Z_mult, <- Zlt_Qlt; lia.
Qed.

Section Scan.

Variables fs rp tp : list Q.

(** Bin [k] is a candidate when the task power is strictly below the rest
    power; [dz k] is its desynchronization. *)
Let cand (k : nat) : Prop := nth k tp 0 < nth k rp 0.
Let dz (k : nat) : Q := nth k rp 0 - nth k tp 0.

(** The loop over [seq s n] ends with no bin chosen exactly when no bin is a
    candidate; otherwise with the first candidate of largest
    desynchronization. *)
Lemma scan_spec (s n : nat) :
  (fold_left (iaf_step fs rp tp) (seq s n) None = None /\
   forall j, (s <= j < s + n)%nat -> ~ cand j) \/
  (exists i, (s <= i < s + n)%nat /\ cand i /\
   fold_left (iaf_step fs rp tp) (seq s n) None = Some (dz i, nth i fs 0, nth i rp 0) /\
   (forall j, (s <= j < s + n)%nat -> cand j -> dz j <= dz i) /\
   (forall j, (s <= j < i)%nat -> cand j -> dz j < dz i)).
Proof.
  induction n as [|n IH].
  - left; split; [reflexivity | intros j Hj; lia].
  - rewrite seq_S, fold_left_app; simpl fold_left.
    destruct IH as [[Hn Hnc] | [i [Hi [Hc [Hst [Hmax Hfirst]]]]]].
    + rewrite Hn; unfold iaf_step; simpl andb.
      destruct (Qltb (nth (s + n) tp 0) (nth (s + n) rp 0)) eqn:E.
      * apply Qltb_iff in E; right; exists (s + n)%nat.
        split; [lia|]; split; [exact E|]; split; [reflexivity|]; split.
        -- intros j Hj Hcj; destruct (Nat.eq_dec j (s + n)) as [->|Hne];
             [apply Qle_refl | exfalso; apply (Hnc j); [lia | exact Hcj]].
        -- intros j Hj Hcj; exfalso; apply (Hnc j); [lia | exact Hcj].
      * left; split; [reflexivity|].
        intros j Hj Hcj; destruct (Nat.eq_dec j (s + n)) as [->|Hne].
        -- apply Qltb_iff in Hcj; unfold cand in Hcj; congruence.
        -- apply (Hnc j); [lia | exact Hcj].
    + rewrite Hst; unfold iaf_step.
      destruct (Qltb (dz i) (nth (s + n) rp 0 - nth (s + n) tp 0)) eqn:E1;
      destruct (Qltb (nth (s + n) tp 0) (nth (s + n) rp 0)) eqn:E2; simpl andb.
      * apply Qltb_iff in E1, E2; right; exists (s + n)%nat.
        split; [lia|]; split; [exact E2|]; split; [reflexivity|]; split.
        -- intros j Hj Hcj; destruct (Nat.eq_dec j (s + n)) as [->|Hne]; [apply Qle_refl|].
           apply Qle_trans with (dz i); [apply Hmax; [lia | exact Hcj] | apply Qlt_le_weak, E1].
        -- intros j Hj Hcj; apply Qle_lt_trans with (dz i); [apply Hmax; [lia | exact Hcj] | exact E1].
      * right; exists i; split; [lia|]; split; [exact Hc|]; split; [reflexivity|]; split.
        -- intros j Hj Hcj; destruct (Nat.eq_dec j (s + n)) as [->|Hne];
             [apply Qltb_iff in Hcj; unfold cand in Hcj; congruence | apply Hmax; [lia | exact Hcj]].
        -- exact Hfirst.
      * right; exists i; split; [lia|]; split; [exact Hc|]; split; [reflexivity|]; split.
        -- intros j Hj Hcj; destruct (Nat.eq_dec j (s + n)) as [->|Hne]; [|apply Hmax; [lia | exact Hcj]].
           apply Qnot_lt_le; intros Hlt; apply Qltb_iff in Hlt; unfold dz in *; congruence.
        -- exact Hfirst.
      * right; exists i; split; [lia|]; split; [exact Hc|]; split; [reflexivity|]; split.
        -- intros j Hj Hcj; destruct (Nat.eq_dec j (s + n)) as [->|Hne];
             [apply Qltb_iff in Hcj; unfold cand in Hcj; congruence | apply Hmax; [lia | exact Hcj]].
        -- exact Hfirst.
Qed.

End Scan.

(** Claim C4.  For rest and task spectra on the frequency axis that
    [computePSD] gives a window of [N >= 512] samples at 512 Hz: the IAF
    calibration fails exactly when no bin in [[6, 14]] Hz has task power
    strictly below rest power; otherwise it reports the first bin of largest
    desynchronization [rest - task] among those candidates, with its
    frequency, its rest power and that desynchronization; spectra identical
    on [[6, 14]] Hz make it fail. *)
Theorem calculateIAF_crb (N : nat) (r t : PSD)
  (HN : (512 <= N)%nat)
  (Hf : frequencies r = bin_frequencies 512 N)
  (Hft : frequencies t = frequencies r)
  (Hr : length (psd r) = length (frequencies r))
  (Ht : length (psd t) = length (frequencies r)) :
  let f k := nth k (frequencies r) 0 in
  let rp k := nth k (psd r) 0 in
  let tp k := nth k (psd t) 0 in
  let h := length (frequencies r) in
  (calculateIAF (Some r) (Some t) = None <->
     forall k, (k < h)%nat -> 6 <= f k -> f k <= 14 -> ~ tp k < rp k) /\
  (forall res, calculateIAF (Some r) (Some t) = Some res ->
     exists k, (k < h)%nat /\ 6 <= f k /\ f k <= 14 /\ tp k < rp k /\
       frequency res = f k /\ power res = rp k /\ desynchronization res = rp k - tp k /\
       (forall j, (j < h)%nat -> 6 <= f j -> f j <= 14 -> tp j < rp j ->
          rp j - tp j <= rp k - tp k) /\
       (forall j, (j < k)%nat -> 6 <= f j -> f j <= 14 -> tp j < rp j ->
          rp j - tp j < rp k - tp k)) /\
  ((forall k, (k < h)%nat -> 6 <= f k -> f k <= 14 -> rp k == tp k) ->
     calculateIAF (Some r) (Some t) = None).
Proof.
  intros f rp tp h; subst f rp tp h.
  set (fs := frequencies r) in *.
  assert (Hh : length fs = ((N + 1) / 2)%nat) by (rewrite Hf; apply length_bin_frequencies).
  pose proof (half_spec N) as Hhalf.
  assert (Hmono : forall i j, (i <= j < length fs)%nat -> nth i fs 0 <= nth j fs 0)
    by (intros i j Hij; rewrite Hh in Hij; rewrite Hf; apply bin_frequencies_mono; lia).
  assert (Htop : 14 < nth (length fs - 1) fs 0)
    by (rewrite Hh, Hf; apply bin_frequencies_top; exact HN).
  assert (Hpos : (0 < length fs)%nat) by (rewrite Hh; remember ((N + 1) / 2)%nat; lia).
  (* the two [findIndex] calls succeed *)
  destruct (findIndex_exists (fun x => Qle_bool 6 x) fs (length fs - 1) 0) as [s Es];
    [lia | apply Qle_bool_iff, Qle_trans with 14; [discriminate | apply Qlt_le_weak, Htop] |].
  destruct (findIndex_exists (fun x => negb (Qle_bool x 14)) fs (length fs - 1) 0) as [e Ee];
    [lia | apply negb_true_iff; destruct (Qle_bool _ 14) eqn:E; [|reflexivity];
           apply Qle_bool_iff in E; exfalso; exact (Qlt_not_le _ _ Htop E) |].
  assert (Hs_iff : forall k, (k < length fs)%nat -> (6 <= nth k fs 0 <-> (s <= k)%nat)).
  { intros k Hk; rewrite <- Qle_bool_iff.
    apply (findIndex_monotone (fun x => Qle_bool 6 x)); [|exact Es|exact Hk].
    intros i j Hij Hi; apply Qle_bool_iff in Hi; apply Qle_bool_iff.
    apply Qle_trans with (nth i fs 0); [exact Hi | apply Hmono; exact Hij]. }
  assert (He_iff : forall k, (k < length fs)%nat -> (nth k fs 0 <= 14 <-> (k < e)%nat)).
  { intros k Hk.
    pose proof (findIndex_monotone (fun x => negb (Qle_bool x 14)) fs e) as HM.
    assert (HM' : forall i j, (i <= j < length fs)%nat ->
              negb (Qle_bool (nth i fs 0) 14) = true -> negb (Qle_bool (nth j fs 0) 14) = true).
    { intros i j Hij Hi; apply negb_true_iff in Hi; apply negb_true_iff.
      destruct (Qle_bool (nth j fs 0) 14) eqn:Ej; [|reflexivity].
      apply Qle_bool_iff in Ej.
      assert (Qle_bool (nth i fs 0) 14 = true) by (apply Qle_bool_iff;
        apply Qle_trans with (nth j fs 0); [apply Hmono; exact Hij | exact Ej]).
      congruence. }
    specialize (HM HM' Ee k Hk); simpl in HM.
    rewrite <- Qle_bool_iff; destruct (Qle_bool (nth k fs 0) 14); simpl in HM;
      split; intros H.
    - destruct (Nat.lt_ge_cases k e) as [Hlt|Hge]; [exact Hlt|].
      apply HM in Hge; discriminate.
    - reflexivity.
    - discriminate.
    - pose proof (proj1 HM eq_refl); lia. }
  destruct (findIndex_some _ fs e 0 Ee) as [He_lt _].
  assert (Hrange : forall k, (k < length fs)%nat ->
            (6 <= nth k fs 0 /\ nth k fs 0 <= 14 <-> (s <= k < e)%nat)).
  { intros k Hk; rewrite (Hs_iff k Hk), (He_iff k Hk); tauto. }
  assert (Hcalc : calculateIAF (Some r) (Some t) =
    match fold_left (iaf_step fs (psd r) (psd t)) (seq s (e - s)) None with
    | None => None
    | Some (d, fq, p) => if Qeq_bool fq 0 then None else Some (mkIAF fq p d r t)
    end) by (unfold calculateIAF; cbv beta iota zeta; fold fs; rewrite Es, Ee; reflexivity).
  rewrite Hcalc.
  pose proof (scan_spec fs (psd r) (psd t) s (e - s)) as HS; cbv zeta in HS.
  destruct HS as [[Hn Hnc] | [i [Hi [Hc [Hst [Hmax Hfirst]]]]]].
  - rewrite Hn; split; [split; [intros _ k Hk H6 H14; apply Hnc|reflexivity]|split].
    + pose proof (proj1 (Hrange k Hk) (conj H6 H14)); lia.
    + intros res Hres; discriminate.
    + intros _; reflexivity.
  - assert (Hie : (s <= i < e)%nat) by lia.
    assert (Hih : (i < length fs)%nat) by lia.
    destruct (proj2 (Hrange i Hih) Hie) as [Hi6 Hi14].
    rewrite Hst.
    replace (Qeq_bool (nth i fs 0) 0) with false.
    2:{ symmetry; destruct (Qeq_bool (nth i fs 0) 0) eqn:E; [|reflexivity].
        apply Qeq_bool_iff in E; rewrite E in Hi6.
        unfold Qle in Hi6; simpl in Hi6; lia. }
    split; [split; [discriminate|]|split].
    + intros H; exfalso; exact (H i Hih Hi6 Hi14 Hc).
    + intros res Hres; injection Hres as <-; exists i; simpl.
      split; [exact Hih|]; split; [exact Hi6|]; split; [exact Hi14|]; split; [exact Hc|].
      split; [reflexivity|]; split; [reflexivity|]; split; [reflexivity|]; split.
      * intros j Hj H6 H14 Hcj; apply Hmax; [|exact Hcj].
        pose proof (proj1 (Hrange j Hj) (conj H6 H14)); lia.
      * intros j Hj H6 H14 Hcj; apply Hfirst; [|exact Hcj].
        assert (Hjh : (j < length fs)%nat) by lia.
        pose proof (proj1 (Hrange j Hjh) (conj H6 H14)); lia.
    + intros Hid; exfalso; specialize (Hid i Hih Hi6 Hi14).
      rewrite Hid in Hc; exact (Qlt_irrefl _ Hc).
Qed.

(** ** Band powers *)

Section Bands.

Variables low high : Q.

Lemma band_sum_shift (fs ps : list Q) (p : Q) (i : nat) (acc : Q) :
  band_sum low high fs (p :: ps) (S i) acc = band_sum low high fs ps i acc.
Proof.
  revert i acc; induction fs as [|f fs IH]; intros i acc; simpl; [reflexivity|].
  rewrite IH; reflexivity.
Qed.

Lemma band_sum_spec (fs ps : list Q) (acc : Q) :
  length ps = length fs ->
  band_sum low high fs ps 0 acc == acc + sumQ (band_bins low high fs ps).
Proof.
  revert ps acc; induction fs as [|f fs IH]; intros ps acc Hl.
  - destruct ps; simpl; [ring | discriminate].
  - destruct ps as [|p ps]; [discriminate|]; simpl in Hl.
    simpl band_sum; rewrite band_sum_shift, IH by lia.
    unfold band_bins; simpl; destruct (in_range low high f); simpl; ring.
Qed.

Lemma band_count (fs ps : list Q) :
  length ps = length fs ->
  length (filter (in_range low high) fs) = length (band_bins low high fs ps).
Proof.
  unfold band_bins; revert ps; induction fs as [|f fs IH]; intros ps Hl;
    destruct ps as [|p ps]; simpl in *; try (reflexivity || discriminate).
  destruct (in_range low high f); simpl; rewrite (IH ps) by lia; reflexivity.
Qed.

Lemma band_sum_none (fs ps : list Q) (i : nat) (acc : Q) :
  filter (in_range low high) fs = [] -> band_sum low high fs ps i acc = acc.
Proof.
  revert i; induction fs as [|f fs IH]; intros i H; simpl in *; [reflexivity|].
  destruct (in_range low high f); [discriminate|]; apply IH, H.
Qed.

Lemma band_bins_nonneg (fs ps : list Q) :
  Forall (Qle 0) ps -> Forall (Qle 0) (band_bins low high fs ps).
Proof.
  unfold band_bins; revert ps; induction fs as [|f fs IH]; intros ps H;
    destruct ps as [|p ps]; simpl; try constructor.
  inversion H; subst; destruct (in_range low high f); simpl; auto.
Qed.

End Bands.

Lemma sumQ_nonneg (l : list Q) : Forall (Qle 0) l -> 0 <= sumQ l.
Proof.
  induction 1 as [|x l Hx _ IH]; simpl; [apply Qle_refl|].
  apply Qle_trans with (0 + 0); [apply Qle_refl | apply Qplus_le_compat; assumption].
Qed.

Lemma band_power_spec (fs ps : list Q) (b : BandName) :
  length ps = length fs -> Forall (Qle 0) ps ->
  band_power fs ps b == spec_band_mean b fs ps /\ 0 <= band_power fs ps b /\
  (band_bins (fst (band_range b)) (snd (band_range b)) fs ps = [] -> band_power fs ps b = 0).
Proof.
  intros Hl Hnn; unfold band_power, spec_band_mean.
  destruct (band_range b) as [low high]; simpl fst; simpl snd.
  pose proof (band_sum_spec low high fs ps 0 Hl) as Hs.
  pose proof (band_bins_nonneg low high fs ps Hnn) as Hb.
  rewrite (band_count low high fs ps Hl).
  destruct (band_bins low high fs ps) as [|q l] eqn:B.
  - assert (Hf : filter (in_range low high) fs = []).
    { apply length_zero_iff_nil; rewrite (band_count low high fs ps Hl), B; reflexivity. }
    rewrite (band_sum_none low high fs ps 0 0 Hf); simpl.
    split; [reflexivity|]; split; [apply Qle_refl | reflexivity].
  - simpl length; replace (0 <? S (length l))%nat with true by reflexivity.
    split; [|split; [|discriminate]].
    + unfold mean; rewrite Hs, Qplus_0_l; reflexivity.
    + unfold Qdiv; apply Qmult_le_0_compat.
      * rewrite Hs, Qplus_0_l; apply sumQ_nonneg; exact Hb.
      * apply Qinv_le_0_compat, Qlt_le_weak, QofNat_pos; lia.
Qed.

(** ** The pipeline *)

Lemma length_mapi_from {A B : Type} (f : nat -> A -> B) (n : nat) (l : list A) :
  length (mapi_from f n l) = length l.
Proof. revert n; induction l; intros n; simpl; auto. Qed.

Lemma length_interleave (l : list Q) : length (flat_map (fun x => [x; 0]) l) = (2 * length l)%nat.
Proof. induction l; simpl; [reflexivity | rewrite IHl; lia]. Qed.

(** ** The claims on the spectral code *)

Lemma calculateIAF_crb_witness :
  let r := mkPSD (bin_frequencies 512 512) (repeat 0 256) [] in
  le 512 512 /\ calculateIAF (Some r) (Some r) = None.
Proof.
  intros r; split; [lia|].
  pose proof (calculateIAF_crb 512 r r ltac:(lia) eq_refl eq_refl eq_refl eq_refl) as H.
  cbv zeta in H; destruct H as [_ [_ H]].
  apply H; intros; reflexivity.
Defined.


Lemma length_processed (hamming : nat -> nat -> Q) (sampleRate : positive) (s : list Q) :
  length (applyHammingWindow hamming (notchFilter (detrend s) 50 sampleRate)) = length s.
Proof.
  unfold applyHammingWindow, notchFilter, detrend.
  rewrite !length_mapi_from, length_map; reflexivity.
Qed.

(** The bins of [computePSD], read off the transform's output. *)
Lemma psd_values_eq (hamming : nat -> nat -> Q) (fft_transform : nat -> list Q -> nat -> Q)
    (fftSize : nat) (sampleRate : positive) (s : list Q) :
  let N := length s in
  let input := flat_map (fun x => [x; 0])
                 (applyHammingWindow hamming (notchFilter (detrend s) 50 sampleRate)) in
  let X := fft_transform fftSize (firstn (2 * fftSize) input) in
  psd_values hamming fft_transform fftSize sampleRate s =
    map (fun i => if (fftSize <=? N)%nat && (i <? fftSize)%nat
                  then Some ((X (2 * i)%nat * X (2 * i)%nat + X (2 * i + 1)%nat * X (2 * i + 1)%nat)
                             / (QofNat N * QofNat N))
                  else None)
      (seq 0 ((N + 1) / 2)).
Proof.
  cbv zeta; unfold psd_values; cbv zeta; apply map_ext; intros i.
  unfold fft_output; rewrite length_interleave, length_processed.
  destruct (Nat.leb_spec (2 * fftSize) (2 * length s)) as [E|E];
    destruct (Nat.leb_spec fftSize (length s)) as [E'|E']; try lia; cbn [andb];
    [|reflexivity].
  destruct (Nat.ltb_spec (2 * i) (2 * fftSize));
    destruct (Nat.ltb_spec (2 * i + 1) (2 * fftSize));
    destruct (Nat.ltb_spec i fftSize); try lia; reflexivity.
Qed.

Lemma all_numbers_map_some (l : list Q) : all_numbers (map Some l) = Some l.
Proof. induction l as [|x l IH]; simpl; [reflexivity | rewrite IH; reflexivity]. Qed.

Lemma all_numbers_none (l : list (option Q)) : In None l -> all_numbers l = None.
Proof.
  induction l as [|[x|] l IH]; simpl; intros H; [contradiction | | reflexivity].
  destruct H as [H|H]; [discriminate|]; rewrite (IH H); reflexivity.
Qed.

Lemma all_numbers_some (l : list (option Q)) (ps : list Q) :
  all_numbers l = Some ps -> l = map Some ps.
Proof.
  revert ps; induction l as [|[x|] l IH]; simpl; intros ps H; try discriminate.
  - injection H as <-; reflexivity.
  - destruct (all_numbers l) as [r|] eqn:E; simpl in H; [|discriminate].
    injection H as <-; simpl; rewrite (IH r eq_refl); reflexivity.
Qed.




(** Claim C5.  For a spectrum with non-negative powers, [extractBandPowers]
    gives one value per canonical band, in order; each is the mean of the
    powers of the bins whose frequency lies in the band's closed range, is
    non-negative, and is exactly [0] when no bin lies in the range. *)
Theorem extractBandPowers_mean (fs ps : list Q)
  (Hlen : length ps = length fs) (Hnn : forallb (Qle_bool 0) ps = true) :
  map fst (extractBandPowers fs ps) = bands /\
  forall b v, In (b, v) (extractBandPowers fs ps) ->
    v == spec_band_mean b fs ps /\ 0 <= v /\
    (band_bins (fst (band_range b)) (snd (band_range b)) fs ps = [] -> v = 0).
Proof.
  assert (Hf : Forall (Qle 0) ps).
  { apply Forall_forall; intros x Hx; apply Qle_bool_iff.
    exact (proj1 (forallb_forall _ ps) Hnn x Hx). }
  split.
  - unfold extractBandPowers; rewrite map_map; apply map_id.
  - intros b v Hin; unfold extractBandPowers in Hin; apply in_map_iff in Hin.
    destruct Hin as [b' [E _]]; injection E as <- <-.
    apply band_power_spec; assumption.
Qed.

Lemma extractBandPowers_mean_witness :
  length [1; 3; 5] = length [4; 10; 12] /\ forallb (Qle_bool 0) [1; 3; 5] = true /\
  map fst (extractBandPowers [4; 10; 12] [1; 3; 5]) = bands.
Proof.
  assert (Hl : length [1; 3; 5] = length [4; 10; 12]) by reflexivity.
  assert (Hn : forallb (Qle_bool 0) [1; 3; 5] = true) by reflexivity.
  split; [exact Hl|]; split; [exact Hn|].
  exact (proj1 (extractBandPowers_mean [4; 10; 12] [1; 3; 5] Hl Hn)).
Defined.

(** Claim C6.  [calculatePSD] on fewer than 512 samples returns [null]
    ([None]) and no spectrum. *)
Theorem calculatePSD_insufficient (hamming : nat -> nat -> Q)
  (fft_transform : nat -> list Q -> nat -> Q) (s : list Q) (H : (length s < 512)%nat) :
  calculatePSD hamming fft_transform s = None.
Proof.
  unfold calculatePSD; apply Nat.ltb_lt in H; rewrite H; reflexivity.
Qed.

Lemma calculatePSD_insufficient_witness :
  lt (length (repeat 0 100)) 512 /\
  calculatePSD (fun _ _ => 1) (fun _ _ _ => 1) (repeat 0 100) = None.
Proof.
  assert (H : lt (length (repeat 0 100)) 512) by (apply Nat.ltb_lt; reflexivity).
  split; [exact H|].
  exact (calculatePSD_insufficient (fun _ _ => 1) (fun _ _ _ => 1) (repeat 0 100) H).
Defined.

End SpectralFacts.

(** ** Further properties of the decoder *)

Module DecoderExtras.

Import ThinkGear DecoderFacts.
Open Scope Z_scope.

Lemma lor_shiftl_add (a c k : Z) :
  0 <= k -> 0 <= c < 2 ^ k -> Z.lor (Z.shiftl a k) c = a * 2 ^ k + c.
Proof.
  intros Hk Hc.
  assert (H0 : Z.land (Z.shiftl a k) c = 0).
  { apply Z.bits_inj_0; intros n; rewrite Z.land_spec.
    destruct (Z.lt_ge_cases n k) as [Hn|Hn].
    - rewrite Z.shiftl_spec_low by exact Hn; reflexivity.
    - rewrite <- (Z.mod_small c (2 ^ k)) by lia.
      rewrite Z.mod_pow2_bits_high by lia; apply andb_false_r. }
  rewrite <- Z.lxor_lor by exact H0.
  rewrite <- Z.add_nocarry_lxor by exact H0.
  rewrite Z.shiftl_mul_pow2 by lia; reflexivity.
Qed.

Lemma decode_raw_bytes (hi lo : Z) : 0 <= hi <= 255 -> 0 <= lo <= 255 ->
  decode_payload [128; 2; hi; lo] =
  set_rawEEG (if 32767 <? hi * 256 + lo then hi * 256 + lo - 65536 else hi * 256 + lo) emptyParsed.
Proof.
  intros H1 H2. unfold decode_payload. cbn -[Z.lor Z.shiftl Z.ltb Z.sub Z.mul Z.add].
  rewrite lor_shiftl_add by (simpl; lia). simpl. reflexivity.
Qed.

Lemma nthZ_shift (pre d : list Z) (k : nat) : nthZ (pre ++ d) (length pre + k) = nthZ d k.
Proof. unfold nthZ; rewrite app_nth2 by lia; f_equal; lia. Qed.

Lemma parse_bands_shift (names : list BandName) (pre d : list Z) (i : nat) :
  parse_bands names (pre ++ d) (length pre + i) = parse_bands names d i.
Proof.
  revert i; induction names as [|b names IH]; intros i; simpl; [reflexivity|].
  rewrite <- !Nat.add_assoc, !nthZ_shift, IH; reflexivity.
Qed.

Lemma ltb_add_l (k a b : nat) : (k + a <? k + b)%nat = (a <? b)%nat.
Proof. destruct (Nat.ltb_spec a b), (Nat.ltb_spec (k + a) (k + b)); lia. Qed.

Lemma leb_add_l (k a b : nat) : (k + a <=? k + b)%nat = (a <=? b)%nat.
Proof. destruct (Nat.leb_spec a b), (Nat.leb_spec (k + a) (k + b)); lia. Qed.

Lemma decode_loop_shift (fuel : nat) (pre d : list Z) (i : nat) (pv : ParsedValues) :
  decode_loop fuel (pre ++ d) (length pre + i) pv = decode_loop fuel d i pv.
Proof.
  revert i pv; induction fuel as [|fuel IH]; intros i pv; [reflexivity|].
  cbn [decode_loop]; rewrite length_app.
  rewrite ?Nat.add_succ_l, <- ?Nat.add_assoc, <- ?Nat.add_succ_r.
  rewrite !ltb_add_l, !leb_add_l, !nthZ_shift, !parse_bands_shift, !IH.
  reflexivity.
Qed.

Lemma decode_loop_fuel (d : list Z) (n m i : nat) (pv : ParsedValues) :
  (length d - i < n)%nat -> (length d - i < m)%nat ->
  decode_loop n d i pv = decode_loop m d i pv.
Proof.
  revert m i pv; induction n as [|n IH]; intros m i pv Hn Hm; [lia|].
  destruct m as [|m]; [lia|].
  cbn [decode_loop].
  destruct (i <? length d)%nat eqn:E; [|reflexivity].
  apply Nat.ltb_lt in E.
  repeat match goal with
  | |- context [if ?c then _ else _] => destruct c eqn:?
  end; try reflexivity; apply IH; lia.
Qed.

Lemma decode_skip (pre rest : list Z) (fuel : nat) (pv : ParsedValues) :
  (length rest < fuel)%nat ->
  decode_loop fuel (pre ++ rest) (length pre) pv = decode_from pv rest.
Proof.
  intros H; rewrite <- (Nat.add_0_r (length pre)), decode_loop_shift.
  unfold decode_from; apply decode_loop_fuel; lia.
Qed.


Section Step.
Variables (fuel : nat) (d : list Z) (i : nat) (pv : ParsedValues).

Ltac step_tac Hi Hc :=
  cbn [decode_loop]; rewrite (proj2 (Nat.ltb_lt _ _) Hi), Hc; cbn -[decode_loop nthZ Z.shiftl Z.lor Z.ltb Nat.ltb Nat.leb Nat.add].

Lemma step_single (c : Z) (set : Z -> ParsedValues -> ParsedValues) :
  (S i < length d)%nat -> nthZ d i = c ->
  (c = 2 /\ set = set_poorSignal \/ c = 4 /\ set = set_attention \/
   c = 5 /\ set = set_meditation) ->
  decode_loop (S fuel) d i pv = decode_loop fuel d (S (S i)) (set (nthZ d (S i)) pv).
Proof.
  intros Hi Hc Hs.
  assert (Hl : (length d <=? S i)%nat = false) by (apply Nat.leb_gt; lia).
  assert (Hi' : (i < length d)%nat) by lia.
  destruct Hs as [[-> ->]|[[-> ->]|[-> ->]]]; step_tac Hi' Hc; rewrite Hl; reflexivity.
Qed.


Lemma step_raw :
  nthZ d i = 128 -> nthZ d (S i) = 2 -> (S (S i) + 2 <= length d)%nat ->
  decode_loop (S fuel) d i pv =
  decode_loop fuel d (S (S i) + 2)
    (set_rawEEG
       (let rawVal := Z.lor (Z.shiftl (nthZ d (S (S i))) 8) (nthZ d (S (S (S i)))) in
        if 32767 <? rawVal then rawVal - 65536 else rawVal) pv).
Proof.
  intros Hc Hv Hl.
  assert (Hi' : (i < length d)%nat) by lia.
  step_tac Hi' Hc.
  rewrite (proj2 (Nat.leb_gt (length d) (S i)) ltac:(lia)), Hv; cbn -[decode_loop nthZ Z.shiftl Z.lor Z.ltb Nat.ltb Nat.leb Nat.add].
  rewrite (proj2 (Nat.ltb_ge (length d) (S (S i) + 2)) ltac:(lia)); reflexivity.
Qed.

Lemma step_bands :
  nthZ d i = 131 -> nthZ d (S i) = 24 -> (S (S i) + 24 <= length d)%nat ->
  decode_loop (S fuel) d i pv =
  decode_loop fuel d (S (S i) + 24) (set_eegBands (parse_bands bands d (S (S i))) pv).
Proof.
  intros Hc Hv Hl.
  assert (Hi' : (i < length d)%nat) by lia.
  step_tac Hi' Hc.
  rewrite (proj2 (Nat.leb_gt (length d) (S i)) ltac:(lia)), Hv; cbn -[decode_loop nthZ Z.shiftl Z.lor Z.ltb Nat.ltb Nat.leb Nat.add].
  rewrite (proj2 (Nat.ltb_ge (length d) (S (S i) + 24)) ltac:(lia)); reflexivity.
Qed.

Lemma step_unknown (c : Z) :
  nthZ d i = c -> 0 <= c < 128 -> c <> 2 -> c <> 4 -> c <> 5 -> (S i < length d)%nat ->
  decode_loop (S fuel) d i pv = decode_loop fuel d (S (S i)) pv.
Proof.
  intros Hc Hr H2 H4 H5 Hl.
  assert (Hi' : (i < length d)%nat) by lia.
  cbn [decode_loop]; rewrite (proj2 (Nat.ltb_lt _ _) Hi'), Hc.
  rewrite (proj2 (Z.eqb_neq c 128)), (proj2 (Z.eqb_neq c 131)), (proj2 (Z.eqb_neq c 2)),
    (proj2 (Z.eqb_neq c 4)), (proj2 (Z.eqb_neq c 5)), (proj2 (Z.ltb_lt c 128)),
    (proj2 (Nat.ltb_lt _ _) Hl) by lia.
  reflexivity.
Qed.

Lemma step_extended (c : Z) :
  nthZ d i = c -> 128 < c -> c <> 131 -> (S i < length d)%nat ->
  decode_loop (S fuel) d i pv = decode_loop fuel d (S i + 1 + Z.to_nat (nthZ d (S i))) pv.
Proof.
  intros Hc Hr H131 Hl.
  assert (Hi' : (i < length d)%nat) by lia.
  cbn [decode_loop]; rewrite (proj2 (Nat.ltb_lt _ _) Hi'), Hc.
  rewrite (proj2 (Z.eqb_neq c 128)), (proj2 (Z.eqb_neq c 131)), (proj2 (Z.eqb_neq c 2)),
    (proj2 (Z.eqb_neq c 4)), (proj2 (Z.eqb_neq c 5)), (proj2 (Z.ltb_ge c 128)),
    (proj2 (Nat.leb_gt _ _) Hl) by lia.
  reflexivity.
Qed.

Lemma step_last :
  S i = length d -> decode_loop (S fuel) d i pv = pv.
Proof.
  intros Hl.
  assert (Hi' : (i < length d)%nat) by lia.
  cbn [decode_loop]; rewrite (proj2 (Nat.ltb_lt _ _) Hi').
  rewrite (proj2 (Nat.leb_le (length d) (S i))) by lia.
  rewrite (proj2 (Nat.ltb_ge (S i) (length d))) by lia.
  repeat match goal with |- context [if ?c then _ else _] => destruct c end; reflexivity.
Qed.

Lemma step_bad_vlen (c v : Z) :
  nthZ d i = c -> nthZ d (S i) = v -> (S i < length d)%nat ->
  (c = 128 /\ (v =? 2) = false \/ c = 131 /\ (v =? 24) = false) ->
  decode_loop (S fuel) d i pv = pv.
Proof.
  intros Hc Hv Hl Hcv.
  assert (Hi' : (i < length d)%nat) by lia.
  assert (Hn : (length d <=? S i)%nat = false) by (apply Nat.leb_gt; lia).
  destruct Hcv as [[-> E]|[-> E]]; step_tac Hi' Hc; rewrite Hn, Hv, E; reflexivity.
Qed.

Lemma step_short_value (c : Z) (n : nat) :
  nthZ d i = c -> (c = 128 /\ nthZ d (S i) = 2 /\ n = 2%nat \/
                   c = 131 /\ nthZ d (S i) = 24 /\ n = 24%nat) ->
  (S i < length d)%nat -> (length d < S (S i) + n)%nat ->
  decode_loop (S fuel) d i pv = pv.
Proof.
  intros Hc Hcv Hl Hs.
  assert (Hi' : (i < length d)%nat) by lia.
  assert (Hn : (length d <=? S i)%nat = false) by (apply Nat.leb_gt; lia).
  destruct Hcv as [[-> [Hv ->]]|[-> [Hv ->]]]; step_tac Hi' Hc; rewrite Hn, Hv;
    cbn -[decode_loop nthZ Z.shiftl Z.lor Z.ltb Nat.ltb Nat.leb Nat.add]; rewrite (proj2 (Nat.ltb_lt _ _) Hs); reflexivity.
Qed.
End Step.
Lemma parse_bands_app (names : list BandName) (bs rest : list Z) (i : nat) :
  (i + 3 * length names <= length bs)%nat ->
  parse_bands names (bs ++ rest) i = parse_bands names bs i.
Proof.
  revert i; induction names as [|b names IH]; intros i H; simpl in *; [reflexivity|].
  unfold nthZ; rewrite !app_nth1 by lia; rewrite IH by lia; reflexivity.
Qed.

Lemma frame_step_some (d d' : list Z) (p : Packet) :
  frame_step d = Cont (Some p) d' ->
  checksumValid p = true /\ keep_packet (parsed p) = true /\ (length d' + 4 <= length d)%nat.
Proof.
  unfold frame_step; cbv zeta; intros H.
  destruct (length d <? 2)%nat; [discriminate|].
  destruct (negb _); [discriminate|].
  destruct (length d <? 3)%nat; [discriminate|].
  destruct (length d <? 3 + Z.to_nat (nthZ d 2) + 1)%nat eqn:E; [discriminate|].
  apply Nat.ltb_ge in E.
  destruct (negb _) eqn:V; [discriminate|].
  destruct (keep_packet _) eqn:K; [|discriminate].
  set (tot := (3 + Z.to_nat (nthZ d 2) + 1)%nat) in *.
  set (pk := firstn tot d) in *.
  set (pD := firstn (Z.to_nat (nthZ d 2)) (skipn 3 pk)) in *.
  set (ok := (255 - Z.land (fold_left Z.add pD 0) 255 =? nthZ pk (length pk - 1))) in *.
  assert (Hp : p = mkPacket (decode_payload pD) ok) by congruence.
  assert (Hd : d' = skipn tot d) by congruence.
  subst p d'; cbn [checksumValid parsed].
  apply negb_false_iff in V; rewrite length_skipn; repeat split; [exact V | exact K | lia].
Qed.

Lemma body_some (b b' : list Z) (p : Packet) :
  body b = Cont (Some p) b' ->
  checksumValid p = true /\ keep_packet (parsed p) = true /\ (length b' + 4 <= length b)%nat.
Proof.
  unfold body; intros H; destruct (frame_step_some _ _ _ H) as [H1 [H2 H3]].
  destruct (drop_nonsync_suffix b) as [pre Hpre].
  repeat split; auto.
  rewrite Hpre at 1; rewrite length_app; lia.
Qed.

Ltac loop_ind b IH :=
  induction b as [b IH] using (well_founded_induction
    (Wf_nat.well_founded_ltof _ (@length Z)));
  unfold Wf_nat.ltof in IH.

Lemma drop_nonsync_head (b : list Z) (x : Z) (r : list Z) :
  drop_nonsync b = x :: r -> x = SYNC.
Proof.
  induction b as [|y b IH]; simpl; [discriminate|].
  destruct (Z.eqb_spec y SYNC) as [->|_]; [congruence|exact IH].
Qed.

(** X1. [unpack3ByteUnsigned] of three bytes is the big-endian 24-bit value
    [b0 * 65536 + b1 * 256 + b2]: the bit fields never overlap. *)
Theorem unpack3ByteUnsigned_value (b0 b1 b2 : Z) :
  0 <= b0 <= 255 -> 0 <= b1 <= 255 -> 0 <= b2 <= 255 ->
  unpack3ByteUnsigned b0 b1 b2 = b0 * 65536 + b1 * 256 + b2.
Proof.
  intros H0 H1 H2; unfold unpack3ByteUnsigned.
  rewrite (lor_shiftl_add b0 (Z.shiftl b1 8) 16) by
    (rewrite ?Z.shiftl_mul_pow2 by lia; simpl; lia).
  rewrite Z.shiftl_mul_pow2 by lia.
  change (2 ^ 16) with 65536; change (2 ^ 8) with 256.
  replace (b0 * 65536 + b1 * 256) with (Z.shiftl (b0 * 256 + b1) 8)
    by (rewrite Z.shiftl_mul_pow2 by lia; change (2 ^ 8) with 256; change (2 ^ 16) with 65536; lia).
  rewrite lor_shiftl_add by (simpl; lia).
  rewrite Z.shiftl_mul_pow2 by lia; change (2 ^ 8) with 256; lia.
Qed.

Lemma unpack3ByteUnsigned_value_witness :
  0 <= 1 <= 255 /\ 0 <= 2 <= 255 /\ 0 <= 3 <= 255 /\
  unpack3ByteUnsigned 1 2 3 = 1 * 65536 + 2 * 256 + 3.
Proof.
  split; [lia|]; split; [lia|]; split; [lia|].
  apply unpack3ByteUnsigned_value; lia.
Defined.

(** X2. A raw-EEG record [0x80 0x02 hi lo] decodes to the big-endian 16-bit
    value [hi * 256 + lo] read as two's complement. *)
Theorem decode_rawEEG_value (hi lo : Z) : 0 <= hi <= 255 -> 0 <= lo <= 255 ->
  decode_payload [128; 2; hi; lo] =
  set_rawEEG (if 32767 <? hi * 256 + lo then hi * 256 + lo - 65536 else hi * 256 + lo) emptyParsed.
Proof. exact (decode_raw_bytes hi lo). Qed.

Lemma decode_rawEEG_value_witness :
  0 <= 255 <= 255 /\ 0 <= 156 <= 255 /\
  decode_payload [128; 2; 255; 156] = set_rawEEG (-100) emptyParsed.
Proof.
  split; [lia|]; split; [lia|].
  rewrite (decode_rawEEG_value 255 156) by lia; reflexivity.
Defined.

(** X3. Every signed 16-bit sample [v], sent as the two bytes of
    [v mod 65536], decodes back to [v]. *)
Theorem decode_rawEEG_roundtrip (v : Z) : -32768 <= v <= 32767 ->
  decode_payload [128; 2; (v mod 65536) / 256; v mod 256] = set_rawEEG v emptyParsed.
Proof.
  intros Hv.
  rewrite decode_raw_bytes by (Z.div_mod_to_equations; lia).
  f_equal.
  assert (E : (v mod 65536) / 256 * 256 + v mod 256 = v mod 65536)
    by (Z.div_mod_to_equations; lia).
  rewrite E.
  destruct (Z.ltb_spec 32767 (v mod 65536)); Z.div_mod_to_equations; lia.
Qed.

Lemma decode_rawEEG_roundtrip_witness :
  -32768 <= -100 <= 32767 /\
  decode_payload [128; 2; (-100 mod 65536) / 256; -100 mod 256] = set_rawEEG (-100) emptyParsed.
Proof. split; [lia|]; apply decode_rawEEG_roundtrip; lia. Defined.

(** X4. Each well-formed record at the front of a payload sets its field
    and decoding goes on with the rest: poorSignal, attention and meditation
    take the next byte, raw EEG the next two, the band powers the next 24. *)
Theorem decode_records (pv : ParsedValues) (x hi lo : Z) (bs rest : list Z)
  (Hbs : length bs = 24%nat) :
  decode_from pv ([2; x] ++ rest) = decode_from (set_poorSignal x pv) rest /\
  decode_from pv ([4; x] ++ rest) = decode_from (set_attention x pv) rest /\
  decode_from pv ([5; x] ++ rest) = decode_from (set_meditation x pv) rest /\
  decode_from pv ([128; 2; hi; lo] ++ rest) =
    decode_from (set_rawEEG (let rawVal := Z.lor (Z.shiftl hi 8) lo in
                             if 32767 <? rawVal then rawVal - 65536 else rawVal) pv) rest /\
  decode_from pv ([131; 24] ++ bs ++ rest) =
    decode_from (set_eegBands (parse_bands bands bs 0) pv) rest.
Proof.
  split; [|split; [|split; [|split]]].
  1-3: unfold decode_from at 1; rewrite length_app; simpl length;
    rewrite (step_single (S (S (length rest))) _ 0 pv _ _) by (simpl; lia || reflexivity || tauto);
    apply (decode_skip [_; x]); lia.
  - unfold decode_from at 1; rewrite length_app; simpl length.
    rewrite (step_raw (S (S (S (S (length rest))))) _ 0 pv) by (reflexivity || (simpl; lia)).
    apply (decode_skip [128; 2; hi; lo]); lia.
  - change ([131; 24] ++ bs ++ rest) with ((131 :: 24 :: bs) ++ rest).
    unfold decode_from at 1; rewrite length_app; simpl length.
    rewrite (step_bands (S (S (length bs + length rest))) _ 0 pv)
      by (reflexivity || (simpl; rewrite length_app; lia)).
    replace (S (S 0) + 24)%nat with (length (131 :: 24 :: bs)) by (simpl; lia).
    replace (parse_bands bands ((131 :: 24 :: bs) ++ rest) 2) with (parse_bands bands bs 0).
    + apply decode_skip; simpl; lia.
    + change ((131 :: 24 :: bs) ++ rest) with ([131; 24] ++ (bs ++ rest)).
      change 2%nat with (length [131; 24] + 0)%nat.
      rewrite parse_bands_shift, parse_bands_app by (simpl; lia); reflexivity.
Qed.

Lemma decode_records_witness :
  length (repeat 1 24) = 24%nat /\ decode_from emptyParsed [4; 9] = set_attention 9 emptyParsed.
Proof.
  split; [reflexivity|].
  destruct (decode_records emptyParsed 9 0 0 (repeat 1 24) [] ltac:(reflexivity)) as [_ [H _]].
  rewrite app_nil_r in H; rewrite H; reflexivity.
Defined.

(** X5. An unknown single-byte code (below [0x80], not [0x02], [0x04] or
    [0x05]) is skipped together with its value byte. *)
Theorem decode_skips_unknown (pv : ParsedValues) (c x : Z) (rest : list Z)
  (Hc : 0 <= c < 128) (H2 : c <> 2) (H4 : c <> 4) (H5 : c <> 5) :
  decode_from pv ([c; x] ++ rest) = decode_from pv rest.
Proof.
  unfold decode_from at 1; rewrite length_app; simpl length.
  rewrite (step_unknown (S (S (length rest))) _ 0 pv c) by (reflexivity || (simpl; lia) || assumption).
  apply (decode_skip [c; x]); lia.
Qed.

Lemma decode_skips_unknown_witness :
  0 <= 7 < 128 /\ 7 <> 2 /\ 7 <> 4 /\ 7 <> 5 /\
  decode_from emptyParsed ([7; 1] ++ [4; 9]) = decode_from emptyParsed [4; 9].
Proof.
  split; [lia|]; split; [lia|]; split; [lia|]; split; [lia|].
  apply decode_skips_unknown; lia.
Defined.

(** X6. An unknown extended code (above [0x80], not [0x83]) is skipped
    together with its length byte and as many value bytes as it gives. *)
Theorem decode_skips_extended (pv : ParsedValues) (c v : Z) (junk rest : list Z)
  (Hc : 128 < c) (H131 : c <> 131) (Hv : 0 <= v) (Hj : length junk = Z.to_nat v) :
  decode_from pv ([c; v] ++ junk ++ rest) = decode_from pv rest.
Proof.
  change ([c; v] ++ junk ++ rest) with ((c :: v :: junk) ++ rest).
  unfold decode_from at 1; rewrite length_app; simpl length.
  rewrite (step_extended (S (S (length junk + length rest))) _ 0 pv c)
    by (reflexivity || (simpl; lia) || assumption).
  replace (S 0 + 1 + Z.to_nat (nthZ ((c :: v :: junk) ++ rest) 1))%nat
    with (length (c :: v :: junk)) by (unfold nthZ; simpl; lia).
  apply decode_skip; simpl; lia.
Qed.

Lemma decode_skips_extended_witness :
  128 < 200 /\ 200 <> 131 /\ 0 <= 2 /\ length [9; 9] = Z.to_nat 2 /\
  decode_from emptyParsed ([200; 2] ++ [9; 9] ++ [4; 9]) = decode_from emptyParsed [4; 9].
Proof.
  split; [lia|]; split; [lia|]; split; [lia|]; split; [reflexivity|].
  apply decode_skips_extended; [lia | lia | lia | reflexivity].
Defined.

(** X7. A raw-EEG or band-power record with the wrong length byte, or cut
    short by the end of the payload, ends decoding: the values decoded
    before it are returned unchanged and nothing after it is read. *)
Theorem decode_stops_malformed (pv : ParsedValues) (c v : Z) (rest : list Z)
  (H : c = 128 /\ ((v =? 2) = false \/ (length rest < 2)%nat) \/
       c = 131 /\ ((v =? 24) = false \/ (length rest < 24)%nat)) :
  decode_from pv (c :: v :: rest) = pv.
Proof.
  unfold decode_from; simpl length.
  destruct H as [[-> [E|E]]|[-> [E|E]]].
  - apply (step_bad_vlen _ _ 0 pv 128 v); simpl; auto; lia.
  - destruct (Z.eqb_spec v 2) as [->|Hv].
    + apply (step_short_value _ _ 0 pv 128 2); simpl; auto; lia.
    + apply (step_bad_vlen _ _ 0 pv 128 v); simpl; [reflexivity|reflexivity|lia|].
      left; split; [reflexivity | apply Z.eqb_neq, Hv].
  - apply (step_bad_vlen _ _ 0 pv 131 v); simpl; auto; lia.
  - destruct (Z.eqb_spec v 24) as [->|Hv].
    + apply (step_short_value _ _ 0 pv 131 24); simpl; auto; lia.
    + apply (step_bad_vlen _ _ 0 pv 131 v); simpl; [reflexivity|reflexivity|lia|].
      right; split; [reflexivity | apply Z.eqb_neq, Hv].
Qed.

Lemma decode_stops_malformed_witness :
  (128 = 128 /\ ((3 =? 2) = false \/ (length [4; 9] < 2)%nat) \/
   128 = 131 /\ ((3 =? 24) = false \/ (length [4; 9] < 24)%nat)) /\
  decode_from emptyParsed [128; 3; 4; 9] = emptyParsed.
Proof.
  assert (H : 128 = 128 /\ ((3 =? 2) = false \/ (length [4; 9] < 2)%nat) \/
              128 = 131 /\ ((3 =? 24) = false \/ (length [4; 9] < 24)%nat))
    by (left; split; [reflexivity | left; reflexivity]).
  split; [exact H | exact (decode_stops_malformed emptyParsed 128 3 [4; 9] H)].
Defined.

(** X8. Every packet [parseStream] returns has a valid checksum and passes
    the output filter. *)
Theorem parseStream_packets_valid (buffer newPayload : list Z) :
  Forall (fun p => checksumValid p = true /\ keep_packet (parsed p) = true)
    (fst (parseStream buffer newPayload)).
Proof.
  unfold parseStream; generalize (buffer ++ newPayload) as b; intros b.
  loop_ind b IH.
  rewrite loop_eq.
  destruct (length b <? MIN_PACKET_LENGTH)%nat; [constructor|].
  destruct (body b) as [b'|o b'] eqn:B; [constructor|].
  pose proof (body_shorter _ _ _ B) as Hlt.
  specialize (IH b' Hlt).
  destruct (loop b') as [out b''] eqn:L; simpl in *.
  destruct o as [p|]; [|exact IH].
  destruct (body_some _ _ _ B) as [H1 [H2 _]].
  constructor; [split; assumption | exact IH].
Qed.

(** X9. [parseStream] returns at most one packet per four bytes of buffered
    input. *)
Theorem parseStream_packet_count (buffer newPayload : list Z) :
  (4 * length (fst (parseStream buffer newPayload)) <= length (buffer ++ newPayload))%nat.
Proof.
  unfold parseStream; generalize (buffer ++ newPayload) as b; intros b.
  loop_ind b IH.
  rewrite loop_eq.
  destruct (length b <? MIN_PACKET_LENGTH)%nat; [simpl; lia|].
  destruct (body b) as [b'|o b'] eqn:B; [simpl; lia|].
  pose proof (body_shorter _ _ _ B) as Hlt.
  specialize (IH b' Hlt).
  destruct (loop b') as [out b''] eqn:L; simpl in *.
  destruct o as [p|]; [|lia].
  destruct (body_some _ _ _ B) as [_ [_ H3]]; simpl; lia.
Qed.

(** X10. The buffer [parseStream] keeps is a suffix of the buffered input:
    bytes are only ever consumed from the front. *)
Theorem parseStream_leftover_suffix (buffer newPayload : list Z) :
  exists consumed, buffer ++ newPayload = consumed ++ snd (parseStream buffer newPayload).
Proof.
  unfold parseStream; generalize (buffer ++ newPayload) as b; intros b.
  loop_ind b IH.
  rewrite loop_eq.
  destruct (length b <? MIN_PACKET_LENGTH)%nat; [exists []; reflexivity|].
  destruct (body b) as [b'|o b'] eqn:B.
  - rewrite (body_stop _ _ B); apply drop_nonsync_suffix.
  - destruct (body_cont _ _ _ B) as [pre [Hpre _]].
    pose proof (body_shorter _ _ _ B) as Hlt.
    destruct (IH b' Hlt) as [pre' Hpre'].
    destruct (loop b') as [out b''] eqn:L; simpl in *.
    exists (pre ++ pre'); rewrite <- app_assoc, <- Hpre'; exact Hpre.
Qed.

(** X11. The buffer [parseStream] keeps is shorter than four bytes, or starts
    with two sync bytes and holds less than the frame its length byte
    announces. *)
Theorem parseStream_leftover_partial (buffer newPayload : list Z) :
  let r := snd (parseStream buffer newPayload) in
  (length r < 4)%nat \/
  (nthZ r 0 = SYNC /\ nthZ r 1 = SYNC /\ (length r < 3 + Z.to_nat (nthZ r 2) + 1)%nat).
Proof.
  cbv zeta; unfold parseStream; generalize (buffer ++ newPayload) as b; intros b.
  loop_ind b IH.
  rewrite loop_eq.
  destruct (length b <? MIN_PACKET_LENGTH)%nat eqn:E.
  { left; apply Nat.ltb_lt in E; exact E. }
  destruct (body b) as [b'|o b'] eqn:B.
  - simpl. pose proof (body_stop _ _ B) as Hd.
    unfold body in B; rewrite <- Hd in B.
    unfold frame_step in B; cbv zeta in B.
    destruct (length b' <? 2)%nat eqn:E1; [left; apply Nat.ltb_lt in E1; lia|].
    destruct (negb (nthZ b' 1 =? SYNC)) eqn:E2; [discriminate|].
    destruct (length b' <? 3)%nat eqn:E3; [left; apply Nat.ltb_lt in E3; lia|].
    destruct (length b' <? 3 + Z.to_nat (nthZ b' 2) + 1)%nat eqn:E4.
    + right; apply Nat.ltb_lt in E4; apply negb_false_iff, Z.eqb_eq in E2.
      destruct b' as [|x r]; [discriminate|].
      pose proof (drop_nonsync_head b x r (eq_sym Hd)) as Hx.
      repeat split; [exact Hx | exact E2 | exact E4].
    + repeat (destruct (negb _) in B || destruct (keep_packet _) in B); discriminate.
  - pose proof (body_shorter _ _ _ B) as Hlt.
    specialize (IH b' Hlt).
    destruct (loop b') as [out b''] eqn:L; simpl in *; exact IH.
Qed.


End DecoderExtras.

(** ** Further properties of the spectral code and of its callers *)

Module SpectralExtras.

Import ThinkGear Spectral SpectralFacts BleContext.
Open Scope Q_scope.

Lemma nth_mapi_from {A B : Type} (f : nat -> A -> B) (n i : nat) (l : list A) (d : A) (e : B) :
  (i < length l)%nat -> nth i (mapi_from f n l) e = f (n + i)%nat (nth i l d).
Proof.
  revert n i; induction l as [|x l IH]; intros n i Hi; simpl in *; [lia|].
  destruct i as [|i]; [f_equal; lia|].
  rewrite IH by lia; f_equal; lia.
Qed.

Lemma nth_mapi_from_out {A B : Type} (f : nat -> A -> B) (n i : nat) (l : list A) (e : B) :
  (length l <= i)%nat -> nth i (mapi_from f n l) e = e.
Proof. intros H; apply nth_overflow; rewrite length_mapi_from; exact H. Qed.

Lemma Qsq_nonneg (x : Q) : 0 <= x * x.
Proof. destruct x as [n d]; unfold Qle, Qmult; simpl; nia. Qed.

Lemma Qdiv_nonneg (a b : Q) : 0 <= a -> 0 <= b -> 0 <= a / b.
Proof. intros Ha Hb; unfold Qdiv; apply Qmult_le_0_compat; [exact Ha | apply Qinv_le_0_compat; exact Hb]. Qed.

Lemma findIAF_loop_spec (fs ps : list Q) (i : nat) (st : Q * Q) :
  let r := findIAF_loop fs ps i st in
  snd st <= snd r /\
  (forall k, (k < length fs)%nat -> in_range 8 13 (nth k fs 0) = true -> nth (i + k) ps 0 <= snd r) /\
  (r = st \/ exists k, (k < length fs)%nat /\ in_range 8 13 (nth k fs 0) = true /\
     r = (nth k fs 0, nth (i + k) ps 0) /\ snd st < snd r).
Proof.
  cbv zeta; revert i st; induction fs as [|f fs IH]; intros i st; simpl.
  - split; [apply Qle_refl|]; split; [intros; lia | left; reflexivity].
  - set (st' := if in_range 8 13 f && Qltb (snd st) (nth i ps 0) then (f, nth i ps 0) else st).
    assert (Hst : snd st <= snd st' /\ (in_range 8 13 f = true -> nth i ps 0 <= snd st')).
    { unfold st'; destruct (in_range 8 13 f); simpl.
      - destruct (Qltb (snd st) (nth i ps 0)) eqn:E; simpl.
        + apply Qltb_iff in E; split; [apply Qlt_le_weak; exact E | intros; apply Qle_refl].
        + split; [apply Qle_refl|]; intros _.
          apply Qnot_lt_le; intros E'; apply Qltb_iff in E'; congruence.
      - split; [apply Qle_refl | discriminate]. }
    destruct (IH (S i) st') as [H1 [H2 H3]].
    split; [apply Qle_trans with (snd st'); [apply Hst | exact H1]|].
    split.
    + intros [|k] Hk Hin; simpl in Hin.
      * rewrite Nat.add_0_r; apply Qle_trans with (snd st'); [apply Hst; exact Hin | exact H1].
      * rewrite <- Nat.add_succ_comm; apply H2; [simpl in Hk; lia | exact Hin].
    + destruct H3 as [H3 | [k [Hk [Hin [Hr Hlt]]]]].
      * rewrite H3; unfold st'.
        destruct (in_range 8 13 f) eqn:Ein; [|left; reflexivity].
        destruct (Qltb (snd st) (nth i ps 0)) eqn:E; [|left; reflexivity].
        right; exists 0%nat; simpl; rewrite Nat.add_0_r.
        apply Qltb_iff in E; repeat split; [lia | exact Ein | exact E].
      * right; exists (S k); simpl; rewrite <- Nat.add_succ_comm.
        repeat split; [lia | exact Hin | exact Hr |].
        apply Qle_lt_trans with (snd st'); [apply Hst | exact Hlt].
Qed.

Lemma slideAmount_half (W : nat) : slideAmount W = (W / 2)%nat.
Proof.
  unfold slideAmount, overlap, QofNat, inject_Z, Qmult, Qfloor; simpl.
  rewrite Z.mul_1_r; change 2%Z with (Z.of_nat 2); rewrite <- Nat2Z.inj_div, Nat2Z.id; reflexivity.
Qed.

Lemma window_count_step (W N : nat) :
  (2 <= W)%nat -> (W <= N)%nat ->
  (if (N <? W)%nat then 0 else S ((N - W) / (W / 2)))%nat =
  S (if (N - W / 2 <? W)%nat then 0 else S ((N - W / 2 - W) / (W / 2)))%nat.
Proof.
  intros HW HN.
  assert (Hh : (0 < W / 2)%nat) by (apply Nat.div_str_pos; lia).
  destruct (Nat.ltb_spec N W); [lia|].
  destruct (Nat.ltb_spec (N - W / 2) W) as [E|E].
  - f_equal; apply Nat.div_small; lia.
  - f_equal; f_equal.
    replace (N - W)%nat with ((N - W / 2 - W) + 1 * (W / 2))%nat by lia.
    rewrite Nat.div_add by lia; lia.
Qed.

Lemma addSamples_windows (hamming : nat -> nat -> Q) (fft_transform : nat -> list Q -> nat -> Q)
    (sr : positive) (W : nat) (xs buffer : list Q) :
  (2 <= W)%nat -> (length buffer < W)%nat ->
  fst (addSamples hamming fft_transform sr W buffer xs) =
    map (fun k => computePSD hamming fft_transform W sr (firstn W (skipn (k * (W / 2)) (buffer ++ xs))))
      (seq 0 (if (length (buffer ++ xs) <? W)%nat then 0
              else S ((length (buffer ++ xs) - W) / (W / 2)))) /\
  (length (snd (addSamples hamming fft_transform sr W buffer xs)) < W)%nat.
Proof.
  intros HW.
  assert (Hh : (0 < W / 2 /\ W / 2 < W)%nat) by (split; [apply Nat.div_str_pos | apply Nat.div_lt]; lia).
  set (h := (W / 2)%nat) in *.
  revert buffer; induction xs as [|x xs IH]; intros buffer Hb; cbn [addSamples].
  - rewrite app_nil_r.
    destruct (Nat.ltb_spec (length buffer) W); [|lia]; split; [reflexivity | exact Hb].
  - replace (buffer ++ x :: xs) with ((buffer ++ [x]) ++ xs) by (rewrite <- app_assoc; reflexivity).
    unfold addSample.
    destruct (Nat.leb_spec W (length (buffer ++ [x]))) as [E|E].
    + rewrite slideAmount_half; fold h.
      assert (Hlb : length (buffer ++ [x]) = W) by (rewrite length_app in *; simpl in *; lia).
      destruct (IH (skipn h (buffer ++ [x]))) as [IH1 IH2]; [rewrite length_skipn; lia|].
      destruct (addSamples hamming fft_transform sr W (skipn h (buffer ++ [x])) xs) as [out b'] eqn:A.
      cbn [fst snd] in *; split; [|exact IH2].
      assert (Hs : skipn h (buffer ++ [x]) ++ xs = skipn h ((buffer ++ [x]) ++ xs)).
      { rewrite (skipn_app h (buffer ++ [x]) xs).
        replace (h - length (buffer ++ [x]))%nat with 0%nat by lia; reflexivity. }
      assert (HN : (W <= length ((buffer ++ [x]) ++ xs))%nat) by (rewrite length_app; lia).
      pose proof (window_count_step W (length ((buffer ++ [x]) ++ xs)) HW HN) as Hc.
      fold h in Hc.
      rewrite IH1, Hs, length_skipn, Hc.
      cbn [seq map]; f_equal.
      * rewrite Nat.mul_0_l, skipn_O, (firstn_app W (buffer ++ [x]) xs), Hlb, Nat.sub_diag, firstn_O, app_nil_r.
        reflexivity.
      * rewrite <- seq_shift, map_map; apply map_ext; intros k.
        rewrite skipn_skipn; do 3 f_equal; lia.
    + destruct (IH (buffer ++ [x])) as [IH1 IH2]; [lia|].
      destruct (addSamples hamming fft_transform sr W (buffer ++ [x]) xs) as [out b'] eqn:A.
      cbn [fst snd] in *; split; [exact IH1 | exact IH2].
Qed.

Lemma slice_neg_push {A : Type} (k : nat) (l : list A) (x : A) :
  slice_neg k (slice_neg k l ++ [x]) = slice_neg k (l ++ [x]).
Proof.
  unfold slice_neg; destruct (Nat.eqb_spec k 0) as [->|Hk]; [reflexivity|].
  rewrite !length_app, length_skipn; simpl.
  rewrite skipn_app, skipn_skipn, (skipn_app (length l + 1 - k) l [x]), length_skipn.
  f_equal; [f_equal; lia | f_equal; lia].
Qed.

Lemma fold_push_recent {A : Type} (k : nat) (buf xs : list A) :
  fold_left (push_recent k) xs (slice_neg k buf) = slice_neg k (buf ++ xs).
Proof.
  revert buf; induction xs as [|x xs IH]; intros buf; simpl.
  - rewrite app_nil_r; reflexivity.
  - unfold push_recent at 2; rewrite slice_neg_push, IH, <- app_assoc; reflexivity.
Qed.

(** X14. [notchFilter] keeps the first [period] samples, and it cancels a
    signal that repeats with period [round(sampleRate / notchFreq)]: every
    later sample of the output is zero. *)
Theorem notchFilter_cancels_period (signal : list Q) (notchFreq sampleRate : positive) (period : nat) :
  period = Z.to_nat (js_round (Qofpos sampleRate / Qofpos notchFreq)) ->
  forallb (fun i => Qeq_bool (nth i signal 0) (nth (i - period) signal 0))
    (seq period (length signal - period)) = true ->
  (forall i, (i < period)%nat -> nth i (notchFilter signal notchFreq sampleRate) 0 = nth i signal 0) /\
  (forall i, (period <= i)%nat -> nth i (notchFilter signal notchFreq sampleRate) 0 == 0).
Proof.
  intros Hp Hper; unfold notchFilter; rewrite <- Hp.
  split; intros i Hi; (destruct (Nat.lt_ge_cases i (length signal)) as [Hl|Hl];
    [rewrite (nth_mapi_from _ _ _ _ 0) by exact Hl; simpl
    | rewrite nth_mapi_from_out by exact Hl; try reflexivity; try (rewrite nth_overflow by exact Hl; reflexivity)]).
  - destruct (Nat.leb_spec period i); [lia | reflexivity].
  - destruct (Nat.leb_spec period i); [|lia].
    rewrite forallb_forall in Hper.
    assert (Hin : In i (seq period (length signal - period))) by (apply in_seq; lia).
    specialize (Hper i Hin).
    apply Qeq_bool_eq in Hper; rewrite Hper; ring.
Qed.

Lemma notchFilter_cancels_period_witness :
  (10 = Z.to_nat (js_round (Qofpos 512 / Qofpos 50)))%nat /\
  forallb (fun i => Qeq_bool (nth i (flat_map (fun _ => [1; 2; 3; 4; 5; 6; 7; 8; 9; 10]) [1; 2; 3]) 0)
                             (nth (i - 10) (flat_map (fun _ => [1; 2; 3; 4; 5; 6; 7; 8; 9; 10]) [1; 2; 3]) 0))
    (seq 10 (length (flat_map (fun _ => [1; 2; 3; 4; 5; 6; 7; 8; 9; 10]) [1; 2; 3]) - 10)) = true /\
  (forall i, (10 <= i)%nat ->
     nth i (notchFilter (flat_map (fun _ => [1; 2; 3; 4; 5; 6; 7; 8; 9; 10]) [1; 2; 3]) 50 512) 0 == 0).
Proof.
  assert (H1 : (10 = Z.to_nat (js_round (Qofpos 512 / Qofpos 50)))%nat) by reflexivity.
  assert (H2 : forallb (fun i => Qeq_bool (nth i (flat_map (fun _ => [1; 2; 3; 4; 5; 6; 7; 8; 9; 10]) [1; 2; 3]) 0)
                             (nth (i - 10) (flat_map (fun _ => [1; 2; 3; 4; 5; 6; 7; 8; 9; 10]) [1; 2; 3]) 0))
    (seq 10 (length (flat_map (fun _ => [1; 2; 3; 4; 5; 6; 7; 8; 9; 10]) [1; 2; 3]) - 10)) = true)
    by (vm_compute; reflexivity).
  split; [exact H1|]; split; [exact H2|].
  exact (proj2 (notchFilter_cancels_period _ 50 512 10 H1 H2)).
Defined.

(** X15. [computePSD] with a transform of size [fftSize] returns powers
    that are all numbers exactly when the signal is empty or has between
    [fftSize] and [2 * fftSize] samples: with fewer the transform reads
    [undefined] input, with more the loop reads past its output.  A result
    of numbers has one power per frequency bin, [(N + 1) / 2] of them for
    [N] samples, none negative, and one band power for each band in order,
    none negative. *)
Theorem computePSD_shape (hamming : nat -> nat -> Q) (fft_transform : nat -> list Q -> nat -> Q)
    (fftSize : nat) (sampleRate : positive) (signal : list Q) :
  let N := length signal in
  (computePSD hamming fft_transform fftSize sampleRate signal = None <->
     (N <> 0 /\ (N < fftSize \/ 2 * fftSize < N))%nat) /\
  (forall r, computePSD hamming fft_transform fftSize sampleRate signal = Some r ->
     length (psd r) = ((N + 1) / 2)%nat /\
     length (frequencies r) = length (psd r) /\
     Forall (Qle 0) (psd r) /\
     map fst (bandPowers r) = bands /\
     Forall (fun bp => 0 <= snd bp) (bandPowers r)).
Proof.
  cbv zeta.
  pose proof (psd_values_eq hamming fft_transform fftSize sampleRate signal) as Hv; cbv zeta in Hv.
  set (N := length signal) in *.
  pose proof (half_spec N) as Hh.
  split.
  - unfold computePSD; rewrite Hv; split.
    + intros Hn; split.
      * intros E; rewrite E in Hn; discriminate.
      * destruct (Nat.leb_spec fftSize N) as [E1|E1]; [|left; exact E1].
        destruct (Nat.leb_spec N (2 * fftSize)) as [E2|E2]; [|right; exact E2].
        rewrite (map_ext_in _ (fun i => Some (
            (fft_transform fftSize (firstn (2 * fftSize) (flat_map (fun x => [x; 0])
               (applyHammingWindow hamming (notchFilter (detrend signal) 50 sampleRate)))) (2 * i)%nat *
             fft_transform fftSize (firstn (2 * fftSize) (flat_map (fun x => [x; 0])
               (applyHammingWindow hamming (notchFilter (detrend signal) 50 sampleRate)))) (2 * i)%nat +
             fft_transform fftSize (firstn (2 * fftSize) (flat_map (fun x => [x; 0])
               (applyHammingWindow hamming (notchFilter (detrend signal) 50 sampleRate)))) (2 * i + 1)%nat *
             fft_transform fftSize (firstn (2 * fftSize) (flat_map (fun x => [x; 0])
               (applyHammingWindow hamming (notchFilter (detrend signal) 50 sampleRate)))) (2 * i + 1)%nat)
            / (QofNat N * QofNat N)))) in Hn.
        -- rewrite <- map_map, all_numbers_map_some in Hn; discriminate.
        -- intros i Hi; apply in_seq in Hi; cbn [andb].
           destruct (Nat.ltb_spec i fftSize); [reflexivity | lia].
    + intros [Hn0 Hn]; rewrite all_numbers_none; [reflexivity|].
      apply in_map_iff.
      destruct Hn as [Hn|Hn].
      * exists 0%nat; split.
        -- destruct (Nat.leb_spec fftSize N); [lia | reflexivity].
        -- apply in_seq; lia.
      * exists fftSize; split.
        -- rewrite Nat.ltb_irrefl, andb_false_r; reflexivity.
        -- apply in_seq; lia.
  - intros r; unfold computePSD.
    destruct (all_numbers (psd_values hamming fft_transform fftSize sampleRate signal)) as [ps|] eqn:A;
      [|discriminate].
    intros E; injection E as <-; cbn [psd frequencies bandPowers].
    apply all_numbers_some in A; rewrite Hv in A.
    assert (Hl : length ps = ((N + 1) / 2)%nat)
      by (rewrite <- (length_map Some ps), <- A, length_map, length_seq; reflexivity).
    assert (Hn : Forall (Qle 0) ps).
    { apply Forall_forall; intros q Hq.
      assert (Hin : In (Some q) (map Some ps)) by (apply in_map; exact Hq).
      rewrite <- A in Hin; apply in_map_iff in Hin; destruct Hin as [i [Hi _]].
      destruct (_ && _); [|discriminate].
      injection Hi as <-; apply Qdiv_nonneg.
      - apply Qle_trans with (0 + 0); [apply Qle_refl|]; apply Qplus_le_compat; apply Qsq_nonneg.
      - apply Qmult_le_0_compat; unfold QofNat; rewrite <- (Zle_Qle 0); lia. }
    assert (Hf : length (bin_frequencies (Qofpos sampleRate) N) = length ps)
      by (rewrite length_bin_frequencies, Hl; reflexivity).
    split; [exact Hl|]; split; [exact Hf|]; split; [exact Hn|]; split.
    + unfold extractBandPowers; rewrite map_map; apply map_id.
    + unfold extractBandPowers; apply Forall_map, Forall_forall; intros b _; simpl.
      apply band_power_spec; [symmetry; exact Hf | exact Hn].
Qed.

(** X16. [findIAF] returns a power that is non-negative and at least the
    power of every bin in [8, 13] Hz; its frequency is the default [10] with
    power [0], or the frequency of a bin in [8, 13] Hz whose positive power it
    returns. *)
Theorem findIAF_alpha_peak (frequencies psd : list Q) :
  let r := findIAF frequencies psd in
  0 <= snd r /\
  (forall k, (k < length frequencies)%nat -> in_range 8 13 (nth k frequencies 0) = true ->
     nth k psd 0 <= snd r) /\
  (r = (10, 0) \/
   exists k, (k < length frequencies)%nat /\ in_range 8 13 (nth k frequencies 0) = true /\
     r = (nth k frequencies 0, nth k psd 0) /\ 0 < snd r).
Proof.
  cbv zeta; unfold findIAF.
  destruct (findIAF_loop_spec frequencies psd 0 (10, 0)) as [H1 [H2 H3]]; simpl in *.
  split; [exact H1|]; split; [exact H2|].
  destruct H3 as [H3 | [k H3]]; [left; exact H3 | right; exists k; exact H3].
Qed.

(** X17. Fed one sample at a time from an empty buffer, [addSample] returns
    the PSDs of the windows of [windowSize] samples starting every
    [windowSize / 2] samples, as soon as each is complete, and keeps fewer
    than [windowSize] samples buffered. *)
Theorem addSamples_sliding_windows (hamming : nat -> nat -> Q) (fft_transform : nat -> list Q -> nat -> Q)
    (sampleRate : positive) (windowSize : nat) (samples : list Q) :
  (2 <= windowSize)%nat ->
  fst (addSamples hamming fft_transform sampleRate windowSize [] samples) =
    map (fun k => computePSD hamming fft_transform windowSize sampleRate
                    (firstn windowSize (skipn (k * (windowSize / 2)) samples)))
      (seq 0 (if (length samples <? windowSize)%nat then 0
              else S ((length samples - windowSize) / (windowSize / 2)))) /\
  (length (snd (addSamples hamming fft_transform sampleRate windowSize [] samples)) < windowSize)%nat.
Proof.
  intros HW; apply (addSamples_windows hamming fft_transform sampleRate windowSize samples []);
    [exact HW | simpl; lia].
Qed.

Lemma addSamples_sliding_windows_witness :
  (2 <= 4)%nat /\
  length (fst (addSamples (fun _ _ => 1) (fun _ _ _ => 1) 512 4 [] [1; 2; 3; 4; 5; 6])) = 2%nat.
Proof.
  assert (H : (2 <= 4)%nat) by lia.
  split; [exact H|].
  rewrite (proj1 (addSamples_sliding_windows (fun _ _ => 1) (fun _ _ _ => 1) 512 4 [1; 2; 3; 4; 5; 6] H)).
  reflexivity.
Defined.

(** X19. Keeping [[...prev, value].slice(-k)] after each value, from a
    history of at most [k] values, leaves the last [k] values received
    ([min k n] of them once [n] values have been seen). *)
Theorem push_recent_window {A : Type} (k : nat) (buf xs : list A) :
  (length buf <= k)%nat ->
  fold_left (push_recent k) xs buf = slice_neg k (buf ++ xs) /\
  (0 < k -> length (fold_left (push_recent k) xs buf) = Nat.min k (length (buf ++ xs)))%nat.
Proof.
  intros Hb.
  assert (E : fold_left (push_recent k) xs buf = slice_neg k (buf ++ xs)).
  { rewrite <- fold_push_recent; f_equal.
    unfold slice_neg; destruct (k =? 0)%nat; [reflexivity|].
    replace (length buf - k)%nat with 0%nat by lia; reflexivity. }
  split; [exact E|]; intros Hk; rewrite E; unfold slice_neg.
  destruct (Nat.eqb_spec k 0); [lia|]; rewrite length_skipn; lia.
Qed.

Lemma push_recent_window_witness :
  le (length (@nil Q)) 3 /\ fold_left (push_recent 3) [1; 2; 3; 4; 5] [] = [3; 4; 5].
Proof.
  assert (H : le (length (@nil Q)) 3) by (simpl; lia).
  split; [exact H|].
  rewrite (proj1 (push_recent_window 3 [] [1; 2; 3; 4; 5] H)); reflexivity.
Defined.

End SpectralExtras.
